(** * File integrity monitor: the scan / hash / diff / monitor engine

    A shallow embedding of [fimsys.py].  Python dictionaries keyed by path
    are [gmap string _], Python sets are [gset string], exceptions are an
    error result, and the functions that touch the file system, the logger
    or the persisted baseline thread an explicit world.

    What the model fixes:
    - the directory tree and the behaviour of its files do not change while
      one operation runs; each turn of the monitor gets its own;
    - the files the engine writes (the baseline documents) are kept in a
      store of their own, apart from the tree it scans;
    - a write is cut in two steps, opening (which truncates) and dumping,
      and may fail at either;
    - the log file is opened when the logger is set up, which may fail; what
      it holds is the world's log, not a document of the store;
    - the monitor is run for a finite number of turns. *)

From Stdlib Require Import ZArith NArith String Ascii List Floats.
From Stdlib.Strings Require Import Byte.
From stdpp Require Import gmap strings list fin_maps pretty.
From Equations Require Import Equations.

Local Open Scope string_scope.
Local Open Scope list_scope.

(** ** Python values the engine handles *)

(** The exceptions that can travel through the engine. *)
Inductive py_exn :=
| PermissionError
| FileNotFoundError
| IsADirectoryError
| OSError
| JSONDecodeError
| KeyError (k : string)
| ValueError
| OverflowError
| KeyboardInterrupt.

(** [type(e).__name__] *)
Definition exn_name (e : py_exn) : string :=
  match e with
  | PermissionError => "PermissionError"
  | FileNotFoundError => "FileNotFoundError"
  | IsADirectoryError => "IsADirectoryError"
  | OSError => "OSError"
  | JSONDecodeError => "JSONDecodeError"
  | KeyError _ => "KeyError"
  | ValueError => "ValueError"
  | OverflowError => "OverflowError"
  | KeyboardInterrupt => "KeyboardInterrupt"
  end.

#[global] Instance py_exn_eq_dec : EqDecision py_exn.
Proof. solve_decision. Defined.

(** The result of a Python call: a value, or a raised exception. *)
Inductive res (A : Type) :=
| Ok (a : A)
| Raise (e : py_exn).
Arguments Ok {A} a.
Arguments Raise {A} e.

#[global] Instance res_ret : MRet res := λ A a, Ok a.
#[global] Instance res_bind : MBind res := λ A B k r,
  match r with
  | Ok a => k a
  | Raise e => Raise e
  end.

(** The per-file entry of a snapshot: [{'hash': _, 'size': _, 'mtime': _}].
    A key that is absent and a key bound to [None]/[null] both read as
    [None] through [dict.get]. *)
Record FileRecord := {
  rec_hash : option string;
  rec_size : option Z;
  rec_mtime : option float
}.

(** [{'generated_at': _, 'root': _}] *)
Record Meta := {
  generated_at : string;
  root : string
}.

(** The baseline document: a dictionary that may hold the keys ['meta']
    and ['files'].  A document produced by [build_baseline] holds both; one
    loaded from storage holds whatever the file holds. *)
Record Baseline := {
  meta : option Meta;
  files : option (gmap string FileRecord)
}.

(** Truth value of a dictionary: it has at least one key. *)
Definition dict_truthy (b : Baseline) : bool :=
  match meta b, files b with
  | None, None => false
  | _, _ => true
  end.

(** ** DiffEngine *)

Record AddedEntry := { a_path : string; a_current : FileRecord }.
Record DeletedEntry := { d_path : string; d_baseline : FileRecord }.
Record ModifiedEntry := {
  m_path : string;
  m_baseline : FileRecord;
  m_current : FileRecord
}.

(** [{'added': _, 'deleted': _, 'modified': _}] *)
Record DiffResult := {
  added : list AddedEntry;
  deleted : list DeletedEntry;
  modified : list ModifiedEntry
}.

(** [d[k]]: raises [KeyError] when the key is absent. *)
Definition subscript (d : gmap string FileRecord) (k : string) : res FileRecord :=
  match d !! k with
  | Some r => Ok r
  | None => Raise (KeyError k)
  end.

(** [for k in added_keys: added.append({'path': k, 'current': current[k]})] *)
Fixpoint added_loop (current : gmap string FileRecord) (ks : list string)
    (added : list AddedEntry) : res (list AddedEntry) :=
  match ks with
  | [] => Ok added
  | k :: ks' =>
      c ← subscript current k;
      added_loop current ks' (added ++ [{| a_path := k; a_current := c |}])
  end.

(** [for k in deleted_keys: deleted.append({'path': k, 'baseline': base_files[k]})] *)
Fixpoint deleted_loop (base_files : gmap string FileRecord) (ks : list string)
    (deleted : list DeletedEntry) : res (list DeletedEntry) :=
  match ks with
  | [] => Ok deleted
  | k :: ks' =>
      b ← subscript base_files k;
      deleted_loop base_files ks' (deleted ++ [{| d_path := k; d_baseline := b |}])
  end.

(** [for k in common_keys: if base_files[k].get('hash') != current[k].get('hash'): ...] *)
Fixpoint modified_loop (base_files current : gmap string FileRecord)
    (ks : list string) (modified : list ModifiedEntry) : res (list ModifiedEntry) :=
  match ks with
  | [] => Ok modified
  | k :: ks' =>
      b ← subscript base_files k;
      c ← subscript current k;
      if bool_decide (rec_hash b ≠ rec_hash c)
      then modified_loop base_files current ks'
             (modified ++ [{| m_path := k; m_baseline := b; m_current := c |}])
      else modified_loop base_files current ks' modified
  end.

(** [baseline.get('files', {}) if baseline else {}] *)
Definition base_files_of (baseline : option Baseline) : gmap string FileRecord :=
  match baseline with
  | Some b => if dict_truthy b then default ∅ (files b) else ∅
  | None => ∅
  end.

(** The three key sets are Python sets; a loop over one visits its
    elements once each, in an order the language leaves open.  [elements]
    fixes one such order. *)
Definition compare_baseline_and_current (baseline : option Baseline)
    (current : gmap string FileRecord) : res DiffResult :=
  let base_files := base_files_of baseline in
  let base_keys : gset string := dom base_files in
  let cur_keys : gset string := dom current in
  let added_keys := cur_keys ∖ base_keys in
  let deleted_keys := base_keys ∖ cur_keys in
  let common_keys := base_keys ∩ cur_keys in
  added ← added_loop current (elements added_keys) [];
  deleted ← deleted_loop base_files (elements deleted_keys) [];
  modified ← modified_loop base_files current (elements common_keys) [];
  Ok {| added := added; deleted := deleted; modified := modified |}.

(** ** The platform library

    [os.path], [fnmatch], [hashlib] and [time] are the interpreter's, and
    [os.path], [fnmatch] and the range of [time.sleep] differ from one
    platform to the next.  The engine is written against this interface;
    [posix] below is one instance. *)
Class Platform := {
  (** [os.path.join(a, b)] *)
  path_join : string → string → string;
  (** [os.path.basename(p)] *)
  path_basename : string → string;
  (** [os.path.relpath(p, start)], given the working directory *)
  path_relpath : string → string → string → string;
  (** [os.path.normpath(p)] *)
  path_normpath : string → string;
  (** [os.path.abspath(p)], given the working directory *)
  path_abspath : string → string → string;
  (** [fnmatch.fnmatch(name, pat)] *)
  fnmatch : string → string → bool;
  (** [hashlib.sha256(data).hexdigest()] *)
  sha256_hexdigest : list Byte.byte → string;
  (** The largest number of seconds, in absolute value, that [time.sleep]
      converts to its internal time; beyond it the conversion raises
      [OverflowError]. *)
  sleep_max : Z
}.

(** ** The world around the engine *)

(** What [os.walk] finds at a path.  [Sealed] is a directory entry that is
    listed but yields nothing: [os.scandir] on it fails (the error is
    dropped, [onerror] being [None]) or it is a symbolic link to a
    directory, which [os.walk] does not follow. *)
#[local] Set Warnings "-register-all".
Inductive node :=
| File
| Dir (entries : list (string * node))
| Sealed.

(** [entry.is_dir()] *)
Definition is_dir (n : node) : bool :=
  match n with
  | File => false
  | Dir _ | Sealed => true
  end.

(** How a path behaves when opened for reading in binary mode. *)
Record file_io := {
  io_open : option py_exn;   (* [open] raises *)
  io_data : list Byte.byte;       (* the bytes the reads deliver *)
  io_fault : option py_exn   (* raised by the read after the last byte *)
}.

(** [os.stat_result], the two fields the engine reads. *)
Record stat_result := {
  st_size : Z;
  st_mtime : float
}.

Inductive write_stage := AtOpen | DuringDump.

(** The part of the world an operation reads and does not change. *)
Record Env := {
  cwd : string;
  tree_at : string → node;
  file_at : string → file_io;
  stat_at : string → res stat_result;
  (** [datetime.utcnow().isoformat()] *)
  utcnow_isoformat : string;
  (** Whether, and where, writing a document fails. *)
  write_fault : option (write_stage * py_exn);
  (** [time.sleep] is cut short by [KeyboardInterrupt]. *)
  sleep_interrupted : bool;
  (** What opening a path for appending raises, if it raises: this is how
      [logging.FileHandler] opens the log file. *)
  log_fault : string → option py_exn
}.

(** What a file written by the engine holds: a complete document, or the
    beginning of one (possibly nothing), which [json.load] rejects. *)
Inductive stored :=
| Holds (doc : Baseline)
| Truncated.

Inductive level := DEBUG | INFO | ERROR.

Inductive fs_event :=
| EvScandir (path : string)
| EvOpen (path : string)
| EvStat (path : string).

(** The part of the world the engine changes. *)
Record World := {
  store : gmap string stored;
  log : list (level * string);
  trace : list fs_event
}.

(** A computation reads the environment, changes the world, and returns or
    raises.  A raised exception keeps the changes made so far. *)
Definition M (A : Type) : Type := Env → World → res A * World.

#[global] Instance M_ret : MRet M := λ A a _ w, (Ok a, w).
#[global] Instance M_bind : MBind M := λ A B k m env w,
  match m env w with
  | (Ok a, w') => k a env w'
  | (Raise e, w') => (Raise e, w')
  end.

Definition raise {A} (e : py_exn) : M A := λ _ w, (Raise e, w).

Definition ask : M Env := λ env w, (Ok env, w).

(** [try: m  except <handled> as e: handler e] *)
Definition try_except {A} (m : M A) (handled : py_exn → bool)
    (handler : py_exn → M A) : M A := λ env w,
  match m env w with
  | (Ok a, w') => (Ok a, w')
  | (Raise e, w') => if handled e then handler e env w' else (Raise e, w')
  end.

Definition lift_res {A} (r : res A) : M A := λ _ w, (r, w).

Definition emit (ev : fs_event) : M unit := λ _ w,
  (Ok (), {| store := store w; log := log w; trace := trace w ++ [ev] |}).

(** [logger.<level>(msg)] *)
Definition logger_log (lv : level) (msg : string) : M unit := λ _ w,
  (Ok (), {| store := store w; log := log w ++ [(lv, msg)]; trace := trace w |}).

Definition set_stored (path : string) (c : stored) : M unit := λ _ w,
  (Ok (), {| store := <[path := c]> (store w); log := log w; trace := trace w |}).

(** ** The engine *)

Definition CHUNK_SIZE : positive := 65536.
Definition DEFAULT_INTERVAL : Z := 10.

Definition inspect {A} (a : A) : {b | a = b} := exist _ a eq_refl.

(** [f.read(n)] on what is left of the file: the chunk and the rest. *)
Definition file_read (n : positive) (rest : list Byte.byte)
    : list Byte.byte * list Byte.byte :=
  (take (Pos.to_nat n) rest, drop (Pos.to_nat n) rest).

(** The body of [with open(file_path, 'rb') as f], reading [n] bytes at a
    time: the hash object [h] is the bytes fed to it so far.
<<
    while True:
        chunk = f.read(CHUNK_SIZE)
        if not chunk: break
        h.update(chunk)
>> *)
Equations read_loop (n : positive) (fault : option py_exn) (rest : list Byte.byte)
    (h : list Byte.byte) : res (list Byte.byte) by wf (length rest) lt :=
  read_loop n fault rest h with inspect (file_read n rest).1 := {
    | exist _ [] _ with fault := {
        | Some e => Raise e
        | None => Ok h
      }
    | exist _ (c :: cs) Hc =>
        read_loop n fault (file_read n rest).2 (h ++ c :: cs)
  }.
Next Obligation.
  unfold file_read in *. cbn [fst snd] in *.
  destruct rest as [|b rest]; [by rewrite take_nil in Hc|].
  rewrite length_drop. cbn [length]. lia.
Qed.

(** [except Exception]: every exception of the model but
    [KeyboardInterrupt]. *)
Definition is_Exception (e : py_exn) : bool :=
  match e with
  | KeyboardInterrupt => false
  | _ => true
  end.

Record metadata := {
  md_size : option Z;
  md_mtime : option float
}.

(** [None] prints as [None] in an f-string. *)
Definition fmt_opt (o : option string) : string := default "None" o.

(** How a run of the monitor stands after the turns it was given.  An
    exception that leaves [monitor_loop] is recorded with the value the
    local [baseline] had at that point ([None] before its assignment). *)
Inductive loop_status :=
| Running (baseline : Baseline)
| Returned
| Uncaught (e : py_exn) (baseline : option Baseline).

Section engine.
Context `{Platform}.

(** [open(file_path, 'rb')] followed by the reads. *)
Definition open_and_read (file_path : string) : M (list Byte.byte) :=
  _ ← emit (EvOpen file_path);
  env ← ask;
  let io := file_at env file_path in
  match io_open io with
  | Some e => raise e
  | None => lift_res (read_loop CHUNK_SIZE (io_fault io) (io_data io) [])
  end.

Definition compute_sha256 (file_path : string) : M string :=
  try_except
    (h ← open_and_read file_path; mret (sha256_hexdigest h))
    (λ e, bool_decide (e = PermissionError) || bool_decide (e = FileNotFoundError))
    (λ e, mret ("<ERROR:" +:+ exn_name e +:+ ">")).

Definition os_stat (path : string) : M stat_result :=
  _ ← emit (EvStat path);
  env ← ask;
  lift_res (stat_at env path).

Definition get_file_metadata (path : string) : M metadata :=
  try_except
    (st ← os_stat path;
     mret {| md_size := Some (st_size st); md_mtime := Some (st_mtime st) |})
    is_Exception
    (λ _, mret {| md_size := None; md_mtime := None |}).

Definition normalize_path (path : string) : M string :=
  env ← ask;
  mret (path_normpath (path_abspath (cwd env) path)).

(** [os.path.relpath(path, start)] *)
Definition relpath (path start : string) : M string :=
  env ← ask;
  mret (path_relpath (cwd env) path start).

Fixpoint should_exclude (path : string) (exclude_patterns : list string) : bool :=
  match exclude_patterns with
  | [] => false
  | pat :: pats =>
      if fnmatch path pat || fnmatch (path_basename path) pat then true
      else should_exclude path pats
  end.

(** The tail of [os.walk] at one directory: enter, in listing order, the
    sub-directories that the loop body left in [dirs]. *)
Definition descend {S : Type} (walk : string → node → S → M S) (top : string)
    (dirs : list string) : list (string * node) → S → M S :=
  fix go (entries : list (string * node)) (s : S) {struct entries} : M S :=
    match entries with
    | [] => mret s
    | e :: entries' =>
        if is_dir e.2 && bool_decide (e.1 ∈ dirs)
        then s' ← walk (path_join top e.1) e.2 s; go entries' s'
        else go entries' s
    end.

(** [os.walk(top)], top-down, errors dropped, links not followed.  The
    generator hands [(root, dirs, files)] to the loop body; the body may
    change the state it carries and prune [dirs] in place, and the walk
    then enters the directories still named in [dirs]. *)
Fixpoint os_walk {S : Type}
    (body : string → list string → list string → S → M (list string * S))
    (top : string) (n : node) (s : S) {struct n} : M S :=
  _ ← emit (EvScandir top);
  match n with
  | Dir entries =>
      let dirs := (List.filter (λ e, is_dir e.2) entries).*1 in
      let nondirs := (List.filter (λ e, negb (is_dir e.2)) entries).*1 in
      r ← body top dirs nondirs s;
      descend (os_walk body) top r.1 entries r.2
  | File | Sealed => mret s
  end.

(** [dirs[:] = [d for d in dirs if not should_exclude(os.path.join(root, d), ...)]] *)
Definition prune_dirs (exclude_patterns : list string) (root : string)
    (dirs : list string) : list string :=
  List.filter (λ d, negb (should_exclude (path_join root d) exclude_patterns)) dirs.

(** [baseline['files'][rel] = r] *)
Definition set_baseline_file (baseline : Baseline) (rel : string) (r : FileRecord)
    : M Baseline :=
  match files baseline with
  | Some fs => mret {| meta := meta baseline; files := Some (<[rel := r]> fs) |}
  | None => raise (KeyError "files")
  end.

(** The [for f in files] loop of [build_baseline]. *)
Fixpoint build_baseline_files (target_dir : string) (exclude_patterns : list string)
    (root : string) (files : list string) (baseline : Baseline) : M Baseline :=
  match files with
  | [] => mret baseline
  | f :: files' =>
      let full := path_join root f in
      if should_exclude full exclude_patterns
      then build_baseline_files target_dir exclude_patterns root files' baseline
      else
        rel ← relpath full target_dir;
        h ← compute_sha256 full;
        md ← get_file_metadata full;
        baseline' ← set_baseline_file baseline rel
          {| rec_hash := Some h; rec_size := md_size md; rec_mtime := md_mtime md |};
        build_baseline_files target_dir exclude_patterns root files' baseline'
  end.

(** [with open(baseline_file, 'w', encoding='utf-8') as bf: json.dump(doc, bf, indent=2)]:
    opening truncates the file, the dump then fills it. *)
Definition write_json (baseline_file : string) (doc : Baseline) : M unit :=
  env ← ask;
  match write_fault env with
  | Some (AtOpen, e) => raise e
  | Some (DuringDump, e) => _ ← set_stored baseline_file Truncated; raise e
  | None => _ ← set_stored baseline_file Truncated; set_stored baseline_file (Holds doc)
  end.

Definition build_baseline (target_dir baseline_file : string)
    (exclude_patterns : list string) : M Baseline :=
  target_dir ← normalize_path target_dir;
  env ← ask;
  let baseline := {|
    meta := Some {| generated_at := utcnow_isoformat env +:+ "Z"; root := target_dir |};
    files := Some ∅
  |} in
  baseline ← os_walk
    (λ root dirs files baseline,
       let dirs := prune_dirs exclude_patterns root dirs in
       baseline ← build_baseline_files target_dir exclude_patterns root files baseline;
       mret (dirs, baseline))
    target_dir (tree_at env target_dir) baseline;
  _ ← write_json baseline_file baseline;
  mret baseline.

(** [with open(baseline_file, 'r', encoding='utf-8') as bf: return json.load(bf)] *)
Definition read_json (baseline_file : string) : M Baseline := λ _ w,
  match store w !! baseline_file with
  | None => (Raise FileNotFoundError, w)
  | Some (Holds doc) => (Ok doc, w)
  | Some Truncated => (Raise JSONDecodeError, w)
  end.

Definition load_baseline (baseline_file : string) : M (option Baseline) :=
  try_except
    (doc ← read_json baseline_file; mret (Some doc))
    (λ e, bool_decide (e = FileNotFoundError))
    (λ _, mret None).

(** The [for f in files] loop of [scan_current_state]. *)
Fixpoint scan_files (target_dir : string) (exclude_patterns : list string)
    (root : string) (files : list string) (cur : gmap string FileRecord)
    : M (gmap string FileRecord) :=
  match files with
  | [] => mret cur
  | f :: files' =>
      let full := path_join root f in
      if should_exclude full exclude_patterns
      then scan_files target_dir exclude_patterns root files' cur
      else
        rel ← relpath full target_dir;
        h ← compute_sha256 full;
        md ← get_file_metadata full;
        scan_files target_dir exclude_patterns root files'
          (<[rel := {| rec_hash := Some h; rec_size := md_size md;
                       rec_mtime := md_mtime md |}]> cur)
  end.

Definition scan_current_state (target_dir : string) (exclude_patterns : list string)
    : M (gmap string FileRecord) :=
  target_dir ← normalize_path target_dir;
  env ← ask;
  os_walk
    (λ root dirs files cur,
       let dirs := prune_dirs exclude_patterns root dirs in
       cur ← scan_files target_dir exclude_patterns root files cur;
       mret (dirs, cur))
    target_dir (tree_at env target_dir) ∅.

(** The logger is the process-wide one; the records it receives are the
    world's [log].  [setup_logger] installs the handlers: the console
    handler always, and
<<
    if log_file:
        fh = logging.FileHandler(log_file, encoding='utf-8')
>>
    which opens the log file for appending when it is built, and raises
    what [open] raises.  [None] and the empty string are both false.  The
    log file is not one of the documents of the [store]. *)
Definition setup_logger (log_file : option string) : M unit :=
  match log_file with
  | None => mret ()
  | Some path =>
      if String.eqb path "" then mret ()
      else
        env ← ask;
        match log_fault env path with
        | Some e => raise e
        | None => mret ()
        end
  end.

Fixpoint log_added (l : list AddedEntry) (changes : Z) : M Z :=
  match l with
  | [] => mret changes
  | a :: l' =>
      _ ← logger_log INFO
            ("ADDED: " +:+ a_path a +:+ " | hash=" +:+ fmt_opt (rec_hash (a_current a)));
      log_added l' (changes + 1)%Z
  end.

Fixpoint log_deleted (l : list DeletedEntry) (changes : Z) : M Z :=
  match l with
  | [] => mret changes
  | d :: l' =>
      _ ← logger_log INFO
            ("DELETED: " +:+ d_path d +:+ " | old_hash="
               +:+ fmt_opt (rec_hash (d_baseline d)));
      log_deleted l' (changes + 1)%Z
  end.

Fixpoint log_modified (l : list ModifiedEntry) (changes : Z) : M Z :=
  match l with
  | [] => mret changes
  | m :: l' =>
      _ ← logger_log INFO
            ("MODIFIED: " +:+ m_path m +:+ " | old_hash="
               +:+ fmt_opt (rec_hash (m_baseline m)) +:+ " | new_hash="
               +:+ fmt_opt (rec_hash (m_current m)));
      log_modified l' (changes + 1)%Z
  end.

Definition print_and_log_diffs (diffs : DiffResult) : M Z :=
  let changes := 0%Z in
  changes ←
    match added diffs with
    | [] => mret changes
    | _ => _ ← logger_log INFO "=== Added Files ==="; log_added (added diffs) changes
    end;
  changes ←
    match deleted diffs with
    | [] => mret changes
    | _ => _ ← logger_log INFO "=== Deleted Files ==="; log_deleted (deleted diffs) changes
    end;
  changes ←
    match modified diffs with
    | [] => mret changes
    | _ => _ ← logger_log INFO "=== Modified Files ==="; log_modified (modified diffs) changes
    end;
  _ ← (if (changes =? 0)%Z then logger_log DEBUG "No changes detected." else mret ());
  mret changes.

(** [time.sleep(interval)]: the interval is first converted to the
    interpreter's internal time, which raises [OverflowError] when it does
    not fit; a negative interval then raises [ValueError]; the sleep
    itself can be cut short by [KeyboardInterrupt]. *)
Definition time_sleep (interval : Z) : M unit :=
  if ((interval <? - sleep_max) || (sleep_max <? interval))%Z then raise OverflowError
  else if (interval <? 0)%Z then raise ValueError
  else
    env ← ask;
    if sleep_interrupted env then raise KeyboardInterrupt else mret ().

(** The part of one turn of the [while True] loop that does not assign
    the local [baseline]: scan, diff, report. *)
Definition monitor_detect (target_dir : string) (exclude_patterns : list string)
    (baseline : Baseline) : M (gmap string FileRecord * Z) :=
  current ← scan_current_state target_dir exclude_patterns;
  diffs ← lift_res (compare_baseline_and_current (Some baseline) current);
  changes ← print_and_log_diffs diffs;
  mret (current, changes).

(** The rest of the turn, once the local [baseline] holds [baseline']. *)
Definition monitor_persist (baseline_file : string) (baseline' : Baseline) : M unit :=
  _ ← write_json baseline_file baseline';
  logger_log INFO "Baseline auto-updated after change.".

(** One turn of the [while True] loop.  The local variable [baseline] is
    part of the state: the turn returns its value at the end of the turn,
    or at the point where the turn raised. *)
Definition monitor_cycle (target_dir baseline_file : string) (interval : Z)
    (update_baseline : bool) (exclude_patterns : list string)
    (baseline : Baseline) (env : Env) (w : World) : Baseline * (res unit * World) :=
  match monitor_detect target_dir exclude_patterns baseline env w with
  | (Raise e, w1) => (baseline, (Raise e, w1))
  | (Ok (current, changes), w1) =>
      if (0 <? changes)%Z && update_baseline then
        match normalize_path target_dir env w1 with
        | (Raise e, w2) => (baseline, (Raise e, w2))
        | (Ok root, w2) =>
            let baseline' := {|
              meta := Some {| generated_at := utcnow_isoformat env +:+ "Z";
                              root := root |};
              files := Some current
            |} in
            (baseline',
             (_ ← monitor_persist baseline_file baseline'; time_sleep interval) env w2)
        end
      else (baseline, time_sleep interval env w1)
  end.

(** [try: while True: ...  except KeyboardInterrupt: ...], run for the
    turns whose environments are given. *)
Fixpoint monitor_while (target_dir baseline_file : string) (interval : Z)
    (update_baseline : bool) (exclude_patterns : list string)
    (baseline : Baseline) (turns : list Env) (w : World) : loop_status * World :=
  match turns with
  | [] => (Running baseline, w)
  | env :: turns' =>
      match monitor_cycle target_dir baseline_file interval update_baseline
              exclude_patterns baseline env w with
      | (baseline', (Ok _, w')) =>
          monitor_while target_dir baseline_file interval update_baseline
            exclude_patterns baseline' turns' w'
      | (baseline', (Raise e, w')) =>
          if bool_decide (e = KeyboardInterrupt)
          then (Returned, (logger_log INFO "Monitoring stopped." env w').2)
          else (Uncaught e (Some baseline'), w')
      end
  end.

Definition monitor_loop (target_dir baseline_file : string) (interval : Z)
    (log_file : option string) (update_baseline : bool)
    (exclude_patterns : list string) (env0 : Env) (turns : list Env) (w : World)
    : loop_status * World :=
  match
    (_ ← setup_logger log_file;
     _ ← logger_log INFO
           ("Monitoring " +:+ target_dir +:+ " every " +:+ pretty interval +:+ "s...");
     baseline ← load_baseline baseline_file;
     match baseline with
     | None => _ ← logger_log ERROR "Baseline not found. Run baseline first."; mret None
     | Some b => mret (Some b)
     end) env0 w
  with
  | (Raise e, w') => (Uncaught e None, w')
  | (Ok None, w') => (Returned, w')
  | (Ok (Some baseline), w') =>
      monitor_while target_dir baseline_file interval update_baseline
        exclude_patterns baseline turns w'
  end.

Definition run_scan_once (target_dir baseline_file : string)
    (log_file : option string) (exclude_patterns : list string) : M Z :=
  _ ← setup_logger log_file;
  baseline ← load_baseline baseline_file;
  match baseline with
  | None =>
      _ ← logger_log ERROR "Baseline not found. Run baseline first.";
      mret 2%Z
  | Some _ =>
      current ← scan_current_state target_dir exclude_patterns;
      diffs ← lift_res (compare_baseline_and_current baseline current);
      changes ← print_and_log_diffs diffs;
      mret (if (changes =? 0)%Z then 0 else 1)%Z
  end.

End engine.

(** ** A POSIX platform

    [posixpath], [fnmatch] on a platform whose [normcase] is the identity,
    and SHA-256. *)
Module Posix.

Definition sep : ascii := "/"%char.

(** [s.split('/')] *)
Fixpoint split (s : string) : list string :=
  match s with
  | EmptyString => [""]
  | String c s' =>
      if Ascii.eqb c sep then "" :: split s'
      else match split s' with
           | h :: t => String c h :: t
           | [] => [String c ""]
           end
  end.

(** ['/'.join(comps)] *)
Fixpoint join_sep (comps : list string) : string :=
  match comps with
  | [] => ""
  | [c] => c
  | c :: cs => c +:+ "/" +:+ join_sep cs
  end.

Definition startswith_sep (s : string) : bool :=
  match s with
  | String c _ => Ascii.eqb c sep
  | EmptyString => false
  end.

Fixpoint endswith_sep (s : string) : bool :=
  match s with
  | EmptyString => false
  | String c EmptyString => Ascii.eqb c sep
  | String _ s' => endswith_sep s'
  end.

(** [posixpath.join(a, b)] *)
Definition join (a b : string) : string :=
  if startswith_sep b then b
  else if String.eqb a "" || endswith_sep a then a +:+ b
  else a +:+ "/" +:+ b.

(** [posixpath.basename(p)]: what follows the last separator. *)
Definition basename (p : string) : string := List.last (split p) "".

(** The loop of [posixpath.normpath] over the components; [new_comps] is
    kept in reverse. *)
Fixpoint normpath_comps (initial_slashes : bool) (comps new_comps : list string)
    : list string :=
  match comps with
  | [] => rev new_comps
  | comp :: comps' =>
      if String.eqb comp "" || String.eqb comp "." then
        normpath_comps initial_slashes comps' new_comps
      else if negb (String.eqb comp "..")
              || (negb initial_slashes && bool_decide (new_comps = []))
              || match new_comps with
                 | top :: _ => String.eqb top ".."
                 | [] => false
                 end
      then normpath_comps initial_slashes comps' (comp :: new_comps)
      else normpath_comps initial_slashes comps' (tl new_comps)
  end.

(** [posixpath.normpath(path)] *)
Definition normpath (path : string) : string :=
  if String.eqb path "" then "."
  else
    let initial_slashes : nat :=
      match path with
      | String "/" (String "/" (String "/" _)) => 1
      | String "/" (String "/" _) => 2
      | String "/" _ => 1
      | _ => 0
      end in
    let comps := normpath_comps (bool_decide (initial_slashes ≠ 0)) (split path) [] in
    let path := join_sep comps in
    let path :=
      match initial_slashes with
      | 0 => path
      | 1 => "/" +:+ path
      | _ => "//" +:+ path
      end in
    if String.eqb path "" then "." else path.

(** [posixpath.abspath(path)] *)
Definition abspath (cwd path : string) : string :=
  normpath (if startswith_sep path then path else join cwd path).

Fixpoint strip_common (xs ys : list string) : list string * list string :=
  match xs, ys with
  | x :: xs', y :: ys' => if String.eqb x y then strip_common xs' ys' else (xs, ys)
  | _, _ => (xs, ys)
  end.

(** [posixpath.relpath(path, start)], for a non-empty [path] *)
Definition relpath (cwd path start : string) : string :=
  let nonempty := List.filter (λ x, negb (String.eqb x "")) in
  let start_list := nonempty (split (abspath cwd start)) in
  let path_list := nonempty (split (abspath cwd path)) in
  let '(start_rest, path_rest) := strip_common start_list path_list in
  let rel_list := List.map (λ _, "..") start_rest ++ path_rest in
  match rel_list with
  | [] => "."
  | c :: cs => List.fold_left join cs c
  end.

(** *** [fnmatch] *)

Inductive glob :=
| GStar
| GAny
| GLit (c : ascii)
| GClass (negated : bool) (ranges : list (ascii * ascii)).

(** Splits what follows a left bracket at the bracket that closes it; a
    right bracket in first place (after the negation mark, if any) is a
    member of the set. *)
Fixpoint until_bracket (first : bool) (s : list ascii)
    : option (list ascii * list ascii) :=
  match s with
  | [] => None
  | c :: s' =>
      if Ascii.eqb c "]" && negb first then Some ([], s')
      else match until_bracket false s' with
           | Some (stuff, rest) => Some (c :: stuff, rest)
           | None => None
           end
  end.

(** The members of a set: [a-b] is a range, any other character stands
    for itself. *)
Fixpoint class_ranges (stuff : list ascii) : list (ascii * ascii) :=
  match stuff with
  | lo :: "-"%char :: hi :: stuff' => (lo, hi) :: class_ranges stuff'
  | c :: stuff' => (c, c) :: class_ranges stuff'
  | [] => []
  end.

Definition parse_class (s : list ascii) : option (glob * list ascii) :=
  let '(negated, body) :=
    match s with
    | "!"%char :: s' => (true, s')
    | _ => (false, s)
    end in
  match until_bracket true body with
  | Some (stuff, rest) => Some (GClass negated (class_ranges stuff), rest)
  | None => None
  end.

Fixpoint parse_glob (fuel : nat) (pat : list ascii) : list glob :=
  match fuel, pat with
  | 0, _ | _, [] => []
  | S fuel', c :: pat' =>
      if Ascii.eqb c "*" then GStar :: parse_glob fuel' pat'
      else if Ascii.eqb c "?" then GAny :: parse_glob fuel' pat'
      else if Ascii.eqb c "[" then
        match parse_class pat' with
        | Some (g, rest) => g :: parse_glob fuel' rest
        | None => GLit c :: parse_glob fuel' pat'
        end
      else GLit c :: parse_glob fuel' pat'
  end.

Definition in_class (negated : bool) (ranges : list (ascii * ascii)) (c : ascii) : bool :=
  let n := N_of_ascii c in
  xorb negated
    (existsb (λ r, (N_of_ascii r.1 <=? n)%N && (n <=? N_of_ascii r.2)%N) ranges).

Fixpoint glob_match (gs : list glob) (name : list ascii) {struct gs} : bool :=
  match gs with
  | [] => bool_decide (name = [])
  | GStar :: gs' =>
      (fix star (name : list ascii) : bool :=
         glob_match gs' name ||
         match name with
         | [] => false
         | _ :: name' => star name'
         end) name
  | GAny :: gs' =>
      match name with
      | _ :: name' => glob_match gs' name'
      | [] => false
      end
  | GLit c :: gs' =>
      match name with
      | c' :: name' => Ascii.eqb c c' && glob_match gs' name'
      | [] => false
      end
  | GClass negated ranges :: gs' =>
      match name with
      | c' :: name' => in_class negated ranges c' && glob_match gs' name'
      | [] => false
      end
  end.

(** [fnmatch.fnmatch(name, pat)] *)
Definition fnmatch (name pat : string) : bool :=
  let pat := list_ascii_of_string pat in
  glob_match (parse_glob (length pat) pat) (list_ascii_of_string name).

(** *** SHA-256 (FIPS 180-4), on 32-bit words held in [N] *)

Local Open Scope N_scope.

Definition w32 (x : N) : N := N.land x 0xffffffff.
Definition add32 (x y : N) : N := w32 (x + y).
Definition rotr (n x : N) : N := N.lor (N.shiftr x n) (w32 (N.shiftl x (32 - n))).
Definition not32 (x : N) : N := N.lxor x 0xffffffff.

Definition Ch (x y z : N) : N := N.lxor (N.land x y) (N.land (not32 x) z).
Definition Maj (x y z : N) : N :=
  N.lxor (N.lxor (N.land x y) (N.land x z)) (N.land y z).
Definition Sigma0 (x : N) : N := N.lxor (N.lxor (rotr 2 x) (rotr 13 x)) (rotr 22 x).
Definition Sigma1 (x : N) : N := N.lxor (N.lxor (rotr 6 x) (rotr 11 x)) (rotr 25 x).
Definition sigma0 (x : N) : N := N.lxor (N.lxor (rotr 7 x) (rotr 18 x)) (N.shiftr x 3).
Definition sigma1 (x : N) : N := N.lxor (N.lxor (rotr 17 x) (rotr 19 x)) (N.shiftr x 10).

Definition is_prime (n : N) : bool :=
  forallb (λ d, negb (n mod N.of_nat d =? 0)) (seq 2 (N.to_nat n - 2)).

Definition primes (count : nat) : list N :=
  take count (List.filter is_prime (List.map N.of_nat (seq 2 310))).

(** The integer part of the [k]-th root of [x], found bit by bit from bit
    [bit - 1] down. *)
Fixpoint iroot (k : N) (bit : nat) (x r : N) : N :=
  match bit with
  | 0%nat => r
  | S bit' =>
      let r' := r + N.shiftl 1 (N.of_nat bit') in
      iroot k bit' x (if r' ^ k <=? x then r' else r)
  end.

(** The first 32 bits of the fractional part of the [k]-th root of [p]. *)
Definition frac_root (k p : N) : N := w32 (iroot k 40 (N.shiftl p (32 * k)) 0).

(** The round constants: from the cube roots of the first 64 primes. *)
Definition K : list N := Eval vm_compute in List.map (frac_root 3) (primes 64).

(** The initial hash value: from the square roots of the first 8 primes. *)
Definition H0 : list N := Eval vm_compute in List.map (frac_root 2) (primes 8).

(** Message padding: a one bit, zeros up to 56 modulo 64, then the length
    in bits on eight bytes, big-endian. *)
Definition be_bytes (width : nat) (x : N) : list N :=
  List.map (λ i, N.land (N.shiftr x (8 * N.of_nat i)) 0xff) (rev (seq 0 width)).

Definition pad (msg : list N) : list N :=
  let len := N.of_nat (length msg) in
  let zeros := N.to_nat ((119 - len mod 64) mod 64) in
  msg ++ [0x80] ++ repeat 0 zeros ++ be_bytes 8 (8 * len).

Fixpoint words (fuel : nat) (bs : list N) : list N :=
  match fuel, bs with
  | S fuel', b0 :: b1 :: b2 :: b3 :: bs' =>
      (N.shiftl b0 24 + N.shiftl b1 16 + N.shiftl b2 8 + b3) :: words fuel' bs'
  | _, _ => []
  end.

(** Extends the message schedule by [n] words; [ws] holds the words so
    far, the latest first. *)
Fixpoint schedule (n : nat) (ws : list N) : list N :=
  match n with
  | 0%nat => rev ws
  | S n' =>
      let w :=
        add32 (add32 (sigma1 (nth 1 ws 0)) (nth 6 ws 0))
              (add32 (sigma0 (nth 14 ws 0)) (nth 15 ws 0)) in
      schedule n' (w :: ws)
  end.

Definition round (st : list N) (kw : N * N) : list N :=
  match st with
  | [a; b; c; d; e; f; g; h] =>
      let t1 := add32 (add32 (add32 h (Sigma1 e)) (add32 (Ch e f g) kw.1)) kw.2 in
      let t2 := add32 (Sigma0 a) (Maj a b c) in
      [add32 t1 t2; a; b; c; add32 d t1; e; f; g]
  | _ => st
  end.

Definition compress (hs : list N) (block : list N) : list N :=
  let ws := schedule 48 (rev block) in
  let st := List.fold_left round (combine K ws) hs in
  List.map (λ p, add32 p.1 p.2) (combine hs st).

Fixpoint blocks (fuel : nat) (ws : list N) (hs : list N) : list N :=
  match fuel, ws with
  | _, [] | 0%nat, _ => hs
  | S fuel', _ => blocks fuel' (drop 16 ws) (compress hs (take 16 ws))
  end.

Definition hex_digit (n : N) : ascii :=
  nth (N.to_nat n) (list_ascii_of_string "0123456789abcdef") "0"%char.

Definition hex32 (x : N) : list ascii :=
  List.map (λ i, hex_digit (N.land (N.shiftr x (4 * N.of_nat i)) 0xf)) (rev (seq 0 8)).

Definition sha256_hexdigest (data : list Byte.byte) : string :=
  let bs := pad (List.map Byte.to_N data) in
  let ws := words (length bs) bs in
  string_of_list_ascii (List.concat (List.map hex32 (blocks (length ws) ws H0))).

Local Close Scope N_scope.

(** [time.sleep] keeps time as a signed 64-bit count of nanoseconds: a
    number of seconds fits when its product by [10^9] does. *)
Definition SLEEP_MAX : Z := Eval vm_compute in ((2 ^ 63 - 1) ÷ 10 ^ 9)%Z.

Definition posix : Platform :=
  Build_Platform join basename relpath normpath abspath fnmatch sha256_hexdigest
    SLEEP_MAX.

End Posix.


(** ** Vocabulary of the statements *)

(** The entry each loop of [compare_baseline_and_current] appends for a
    key, if any. *)
Definition added_entry (C : gmap string FileRecord) (k : string) : option AddedEntry :=
  (λ c, {| a_path := k; a_current := c |}) <$> C !! k.

Definition deleted_entry (B : gmap string FileRecord) (k : string) : option DeletedEntry :=
  (λ b, {| d_path := k; d_baseline := b |}) <$> B !! k.

Definition modified_entry (B C : gmap string FileRecord) (k : string)
    : option ModifiedEntry :=
  b ← B !! k; c ← C !! k;
  if bool_decide (rec_hash b ≠ rec_hash c)
  then Some {| m_path := k; m_baseline := b; m_current := c |}
  else None.

(** The value [compare_baseline_and_current] returns, in closed form. *)
Definition diff_of (B C : gmap string FileRecord) : DiffResult := {|
  added := omap (added_entry C) (elements (dom C ∖ dom B));
  deleted := omap (deleted_entry B) (elements (dom B ∖ dom C));
  modified := omap (modified_entry B C) (elements (dom B ∩ dom C))
|}.

(** The comparison returned, every entry of [C] is in [added] once, and
    the two other lists are empty. *)
Definition all_reported_added (C : gmap string FileRecord) (r : res DiffResult) : Prop :=
  match r with
  | Ok d =>
      (∀ k rec, {| a_path := k; a_current := rec |} ∈ added d ↔ C !! k = Some rec)
      ∧ NoDup (a_path <$> added d)
      ∧ deleted d = [] ∧ modified d = []
  | Raise _ => False
  end.

(** Applies [f] to the value a computation returned. *)
Definition out_map {A B} (f : A → B) (out : res A * World) : res B * World :=
  (match out.1 with
   | Ok a => Ok (f a)
   | Raise e => Raise e
   end, out.2).

(** The baseline document with the given ['meta'] and ['files']. *)
Definition document (m : option Meta) (fs : gmap string FileRecord) : Baseline :=
  {| meta := m; files := Some fs |}.

(** The paths a diff reports, list after list. *)
Definition diff_paths (d : DiffResult) : list string :=
  (a_path <$> added d) ++ (d_path <$> deleted d) ++ (m_path <$> modified d).

Section scan_vocabulary.
Context `{Platform}.

(** The body of the [for root, dirs, files in os.walk(target_dir)] loop of
    [scan_current_state]. *)
Definition scan_visit (target_dir : string) (exclude_patterns : list string)
    (root : string) (dirs files : list string) (cur : gmap string FileRecord)
    : M (list string * gmap string FileRecord) :=
  cur ← scan_files target_dir exclude_patterns root files cur;
  mret (prune_dirs exclude_patterns root dirs, cur).

(** Two trees found at [top] that are the same but for what lies inside
    the sub-directories, at any depth, that the patterns exclude. *)
Fixpoint same_outside_excluded (pats : list string) (top : string) (n n' : node)
    {struct n} : Prop :=
  match n, n' with
  | File, File | Sealed, Sealed => True
  | Dir entries, Dir entries' =>
      (fix go (es es' : list (string * node)) {struct es} : Prop :=
         match es, es' with
         | [], [] => True
         | e :: es, e' :: es' =>
             (e.1 = e'.1 ∧ is_dir e.2 = is_dir e'.2
              ∧ if is_dir e.2 && should_exclude (path_join top e.1) pats then True
                else same_outside_excluded pats (path_join top e.1) e.2 e'.2)
             ∧ go es es'
         | _, _ => False
         end) entries entries'
  | _, _ => False
  end.

(** The same, for one entry of the directory at [top]. *)
Definition same_entry (pats : list string) (top : string) (e e' : string * node) : Prop :=
  e.1 = e'.1 ∧ is_dir e.2 = is_dir e'.2
  ∧ if is_dir e.2 && should_exclude (path_join top e.1) pats then True
    else same_outside_excluded pats (path_join top e.1) e.2 e'.2.

(** No pattern matches the path or its base name. *)
Definition unmatched (pats : list string) (path : string) : Prop :=
  ∀ pat, pat ∈ pats → fnmatch path pat = false ∧ fnmatch (path_basename path) pat = false.

(** What a scan started at [top] may do to the file system: list [top]
    and directories no pattern matches, open and stat files no pattern
    matches. *)
Definition permitted (pats : list string) (top : string) (ev : fs_event) : Prop :=
  match ev with
  | EvScandir path => path = top ∨ unmatched pats path
  | EvOpen path | EvStat path => unmatched pats path
  end.

End scan_vocabulary.

(** The world after more file-system events. *)
Definition add_trace (w : World) (evs : list fs_event) : World :=
  {| store := store w; log := log w; trace := trace w ++ evs |}.

(** The environment with another tree at every path. *)
Definition with_tree (env : Env) (n : node) : Env := {|
  cwd := cwd env;
  tree_at := λ _, n;
  file_at := file_at env;
  stat_at := stat_at env;
  utcnow_isoformat := utcnow_isoformat env;
  write_fault := write_fault env;
  sleep_interrupted := sleep_interrupted env;
  log_fault := log_fault env
|}.

(** What holds of a stretch of a scan that started in world [w] with the
    mapping [cur] and ended as [out]: the world has only gained file-system
    events, all of them permitted, and an entry of the mapping that was not
    there at the start is keyed by the relative path of a file that was
    opened and that no pattern matches. *)
Definition scan_spec `{Platform} {A} (get : A → gmap string FileRecord)
    (pats : list string) (target top : string) (env : Env)
    (cur : gmap string FileRecord) (w : World) (out : res A * World) : Prop :=
  ∃ evs, out.2 = add_trace w evs
    ∧ Forall (permitted pats top) evs
    ∧ ∀ a, out.1 = Ok a → ∀ k rec, get a !! k = Some rec →
        cur !! k = Some rec
        ∨ ∃ full, k = path_relpath (cwd env) full target
                  ∧ unmatched pats full ∧ EvOpen full ∈ evs.

(** The exception a read of the file meets, if any: at [open], or after
    the data. *)
Definition read_failure (io : file_io) : option py_exn :=
  match io_open io with
  | Some e => Some e
  | None => io_fault io
  end.

(** The two exceptions [compute_sha256] names in its [except] clause. *)
Definition handled_by_compute_sha256 (e : py_exn) : Prop :=
  e = PermissionError ∨ e = FileNotFoundError.

(** The sentinel digest of an unreadable file. *)
Definition sentinel (e : py_exn) : string := "<ERROR:" +:+ exn_name e +:+ ">".

(** The world after more log records. *)
Definition add_log (w : World) (records : list (level * string)) : World :=
  {| store := store w; log := log w ++ records; trace := trace w |}.

(** The number of entries of a diff. *)
Definition diff_size (d : DiffResult) : nat :=
  length (added d) + length (deleted d) + length (modified d).

(** Every failure the environment holds in store for a scan is one the
    engine handles: reads fail with one of the two exceptions
    [compute_sha256] names, [os.stat] with an [Exception]. *)
Definition failures_handled (env : Env) : Prop :=
  (∀ path e, read_failure (file_at env path) = Some e → handled_by_compute_sha256 e)
  ∧ (∀ path e, stat_at env path = Raise e → is_Exception e = true).

(** The world with another store. *)
Definition set_store (w : World) (st : gmap string stored) : World :=
  {| store := st; log := log w; trace := trace w |}.

(** What writing [doc] to [baseline_file] in place leaves in the store,
    according to where the write fails, if it does: the old content if the
    file could not be opened, the beginning of the document if the write
    stopped after that, the document otherwise. *)
Definition overwritten_in_place (baseline_file : string) (doc : Baseline) (env : Env)
    (before after : gmap string stored) : Prop :=
  match write_fault env with
  | None => after = <[baseline_file := Holds doc]> before
  | Some (AtOpen, _) => after = before
  | Some (DuringDump, _) => after = <[baseline_file := Truncated]> before
  end.

(** The document the monitor builds from a scan. *)
Definition updated_baseline `{Platform} (target_dir : string) (env : Env)
    (current : gmap string FileRecord) : Baseline :=
  document (Some {| generated_at := utcnow_isoformat env +:+ "Z";
                    root := path_normpath (path_abspath (cwd env) target_dir) |})
           current.

(** The log file, if one is asked for, can be opened for appending: the
    logger can be set up. *)
Definition log_file_opens (env : Env) (log_file : option string) : Prop :=
  match log_file with
  | Some path => path ≠ "" → log_fault env path = None
  | None => True
  end.

(** An interval [time.sleep] accepts. *)
Definition sleep_accepts `{Platform} (interval : Z) : Prop :=
  (0 ≤ interval ≤ sleep_max)%Z.

(** ** A sample world, for the examples *)
Module Sample.

Definition bytes_of (s : string) : list Byte.byte := list_byte_of_string s.

Definition readable (content : string) : file_io :=
  {| io_open := None; io_data := bytes_of content; io_fault := None |}.

Definition unopenable (e : py_exn) : file_io :=
  {| io_open := Some e; io_data := []; io_fault := None |}.

(** What lies under [/srv/data]. *)
Definition tree : node :=
  Dir [("a.txt", File);
       ("cache", Dir [("tmp.bin", File); ("deep", Dir [("x.txt", File)])]);
       ("docs", Dir [("readme.md", File)]);
       ("mnt", Sealed);
       ("secret.key", File)].

Definition contents : list (string * file_io) :=
  [("/srv/data/a.txt", readable "alpha");
   ("/srv/data/cache/tmp.bin", readable "");
   ("/srv/data/cache/deep/x.txt", readable "x");
   ("/srv/data/docs/readme.md", readable "read me");
   ("/srv/data/secret.key", unopenable PermissionError)].

Definition lookup_path {A} (table : list (string * A)) (default : A) (path : string) : A :=
  match List.find (λ e, String.eqb e.1 path) table with
  | Some e => e.2
  | None => default
  end.

Definition stats : list (string * res stat_result) :=
  [("/srv/data/a.txt", Ok {| st_size := 5; st_mtime := 1700000000.5%float |});
   ("/srv/data/cache/tmp.bin", Ok {| st_size := 0; st_mtime := 1700000001%float |});
   ("/srv/data/cache/deep/x.txt", Ok {| st_size := 1; st_mtime := 1700000002%float |});
   ("/srv/data/docs/readme.md", Ok {| st_size := 7; st_mtime := 1700000003%float |});
   ("/srv/data/secret.key", Ok {| st_size := 32; st_mtime := 1700000004%float |})].

Definition env : Env := {|
  cwd := "/srv";
  tree_at := λ path, if String.eqb path "/srv/data" then tree else Sealed;
  file_at := lookup_path contents (unopenable FileNotFoundError);
  stat_at := lookup_path stats (Raise FileNotFoundError);
  utcnow_isoformat := "2024-05-01T12:00:00.000000";
  write_fault := None;
  sleep_interrupted := false;
  log_fault := λ _, None
|}.

Definition world : World := {| store := ∅; log := []; trace := [] |}.

(** The same tree with other things under [cache]. *)
Definition tree_other_cache : node :=
  Dir [("a.txt", File);
       ("cache", Dir [("objects", Dir [("0001", File); ("0002", File)])]);
       ("docs", Dir [("readme.md", File)]);
       ("mnt", Sealed);
       ("secret.key", File)].

(** The environment in which [path] behaves as [io] when read. *)
Definition with_file (e : Env) (path : string) (io : file_io) : Env := {|
  cwd := cwd e;
  tree_at := tree_at e;
  file_at := λ p, if String.eqb p path then io else file_at e p;
  stat_at := stat_at e;
  utcnow_isoformat := utcnow_isoformat e;
  write_fault := write_fault e;
  sleep_interrupted := sleep_interrupted e;
  log_fault := log_fault e
|}.

(** The environment in which writing a document fails. *)
Definition with_write_fault (e : Env) (stage : write_stage) (exn : py_exn) : Env := {|
  cwd := cwd e;
  tree_at := tree_at e;
  file_at := file_at e;
  stat_at := stat_at e;
  utcnow_isoformat := utcnow_isoformat e;
  write_fault := Some (stage, exn);
  sleep_interrupted := sleep_interrupted e;
  log_fault := log_fault e
|}.

(** A read of [a.txt] that fails with an input/output error after two
    bytes. *)
Definition env_io_error : Env :=
  with_file env "/srv/data/a.txt"
    {| io_open := None; io_data := bytes_of "al"; io_fault := Some OSError |}.

(** A baseline taken when the directory held nothing. *)
Definition old_baseline : Baseline :=
  document (Some {| generated_at := "2024-04-30T08:00:00.000000Z"; root := "/srv/data" |}) ∅.

Definition world_with_baseline : World :=
  {| store := {["baseline.json" := Holds old_baseline]}; log := []; trace := [] |}.

(** The write is cut short by an interrupt once the file is open. *)
Definition env_interrupted : Env := with_write_fault env DuringDump KeyboardInterrupt.

(** The baseline file cannot be opened for writing. *)
Definition env_denied : Env := with_write_fault env AtOpen PermissionError.

(** How many times the root of the sample tree was listed. *)
Definition scans_of_root (events : list fs_event) : nat :=
  length (List.filter (λ ev, match ev with
                             | EvScandir path => String.eqb path "/srv/data"
                             | _ => false
                             end) events).

End Sample.

(** ** Vocabulary of the further statements *)

(** The paths the events open, in order. *)
Definition opened (evs : list fs_event) : list string :=
  omap (λ ev, match ev with
              | EvOpen path => Some path
              | _ => None
              end) evs.

(** A record as a scan builds it: it has a hash, and its size and its
    modification time come together or not at all. *)
Definition record_wf (r : FileRecord) : Prop :=
  is_Some (rec_hash r) ∧ (is_Some (rec_size r) ↔ is_Some (rec_mtime r)).

Section kept_vocabulary.
Context `{Platform}.

(** Of the files listed in the directory [root], the full paths of those
    no pattern excludes. *)
Definition kept_in_dir (pats : list string) (root : string) (files : list string)
    : list string :=
  List.filter (λ full, negb (should_exclude full pats)) (List.map (path_join root) files).

(** The files kept below the entries of the directory [top], [kept] giving
    those of a sub-directory: excluded sub-directories give none. *)
Definition kept_below (kept : string → node → list string) (pats : list string)
    (top : string) : list (string * node) → list string :=
  fix go (entries : list (string * node)) {struct entries} : list string :=
    match entries with
    | [] => []
    | e :: entries' =>
        (if is_dir e.2 && negb (should_exclude (path_join top e.1) pats)
         then kept (path_join top e.1) e.2
         else [])
        ++ go entries'
    end.

(** The full paths of the files of the tree found at [top] that lie in no
    excluded directory and are not excluded themselves, in the order of the
    walk: the files of a directory first, then its sub-directories. *)
Fixpoint kept_files (pats : list string) (top : string) (n : node) {struct n}
    : list string :=
  match n with
  | Dir entries =>
      kept_in_dir pats top (List.filter (λ e, negb (is_dir e.2)) entries).*1
      ++ kept_below (kept_files pats) pats top entries
  | File | Sealed => []
  end.

(** The file at [full] does not stop a scan: reading it succeeds or fails
    with an exception [compute_sha256] handles, and [os.stat] on it succeeds
    or fails with an [Exception]. *)
Definition file_ok (env : Env) (full : string) : Prop :=
  (∀ e, read_failure (file_at env full) = Some e → handled_by_compute_sha256 e)
  ∧ (∀ e, stat_at env full = Raise e → is_Exception e = true).

(** What holds of a stretch of a scan run from the mapping [cur] over the
    files [kept]: its result and the events it adds do not depend on the
    world; it returns exactly when none of the files stops it; if it
    returns, it has opened exactly those files, the mapping has gained
    exactly their relative paths, and every record it has written is well
    formed. *)
Definition scan_outcome (target : string) (env : Env) (kept : list string)
    (cur : gmap string FileRecord) (m : M (gmap string FileRecord)) : Prop :=
  ∃ r evs,
    (∀ w, m env w = (r, add_trace w evs))
    ∧ ((∃ cur', r = Ok cur') ↔ Forall (file_ok env) kept)
    ∧ ∀ cur', r = Ok cur' →
        opened evs = kept
        ∧ dom cur' = dom cur
                     ∪ list_to_set ((λ full, path_relpath (cwd env) full target) <$> kept)
        ∧ ∀ k rec, cur' !! k = Some rec → cur !! k = Some rec ∨ record_wf rec.

End kept_vocabulary.

(** The log records [print_and_log_diffs] writes for a diff: each
    non-empty list under its heading, one line per entry, or the one line
    that says nothing changed. *)
Definition added_lines (l : list AddedEntry) : list (level * string) :=
  match l with
  | [] => []
  | _ =>
      (INFO, "=== Added Files ===")
      :: ((λ a, (INFO, "ADDED: " +:+ a_path a +:+ " | hash="
                         +:+ fmt_opt (rec_hash (a_current a)))) <$> l)
  end.

Definition deleted_lines (l : list DeletedEntry) : list (level * string) :=
  match l with
  | [] => []
  | _ =>
      (INFO, "=== Deleted Files ===")
      :: ((λ d, (INFO, "DELETED: " +:+ d_path d +:+ " | old_hash="
                         +:+ fmt_opt (rec_hash (d_baseline d)))) <$> l)
  end.

Definition modified_lines (l : list ModifiedEntry) : list (level * string) :=
  match l with
  | [] => []
  | _ =>
      (INFO, "=== Modified Files ===")
      :: ((λ m, (INFO, "MODIFIED: " +:+ m_path m +:+ " | old_hash="
                         +:+ fmt_opt (rec_hash (m_baseline m)) +:+ " | new_hash="
                         +:+ fmt_opt (rec_hash (m_current m)))) <$> l)
  end.

Definition report_lines (d : DiffResult) : list (level * string) :=
  added_lines (added d) ++ deleted_lines (deleted d) ++ modified_lines (modified d)
  ++ match diff_size d with
     | 0 => [(DEBUG, "No changes detected.")]
     | _ => []
     end.

(** The first log record of [monitor_loop]. *)
Definition monitoring_line (target_dir : string) (interval : Z) : level * string :=
  (INFO, "Monitoring " +:+ target_dir +:+ " every " +:+ pretty interval +:+ "s...").

(** ** More of the sample world *)
Module MoreSamples.

Definition some_record : FileRecord :=
  {| rec_hash := Some "8ed3f6ad"; rec_size := Some 5%Z;
     rec_mtime := Some 1700000000.5%float |}.

Definition other_record : FileRecord :=
  {| rec_hash := Some "3f220956"; rec_size := Some 7%Z;
     rec_mtime := Some 1700000003%float |}.

(** A record as a hand-edited baseline may hold it: no hash. *)
Definition hashless_record : FileRecord :=
  {| rec_hash := None; rec_size := Some 5%Z; rec_mtime := None |}.

Definition some_files : gmap string FileRecord :=
  {["docs/readme.md" := other_record]}.

Definition hashless_files : gmap string FileRecord :=
  {["a.txt" := hashless_record]}.

(** The baseline file holds the beginning of a document. *)
Definition world_truncated : World :=
  {| store := {["baseline.json" := Truncated]}; log := []; trace := [] |}.

(** The environment in which the sleep of the monitor is interrupted. *)
Definition with_interrupted_sleep (e : Env) : Env := {|
  cwd := cwd e;
  tree_at := tree_at e;
  file_at := file_at e;
  stat_at := stat_at e;
  utcnow_isoformat := utcnow_isoformat e;
  write_fault := write_fault e;
  sleep_interrupted := true;
  log_fault := log_fault e
|}.

(** The environment in which the directory of the log file [path] is
    missing. *)
Definition with_missing_log_dir (e : Env) (path : string) : Env := {|
  cwd := cwd e;
  tree_at := tree_at e;
  file_at := file_at e;
  stat_at := stat_at e;
  utcnow_isoformat := utcnow_isoformat e;
  write_fault := write_fault e;
  sleep_interrupted := sleep_interrupted e;
  log_fault := λ p, if String.eqb p path then Some FileNotFoundError else log_fault e p
|}.

End MoreSamples.

(** * Properties *)

(** ** DiffEngine *)

Section diff.
Implicit Types (B C : gmap string FileRecord) (ks : list string).

Lemma added_loop_omap C ks acc :
  (∀ k, k ∈ ks → is_Some (C !! k)) →
  added_loop C ks acc = Ok (acc ++ omap (added_entry C) ks).
Proof.
  revert acc. induction ks as [|k ks IH]; intros acc Hks; simpl.
  - by rewrite app_nil_r.
  - destruct (Hks k) as [c Hc]; [left|].
    unfold subscript, added_entry at 1. rewrite Hc. simpl.
    rewrite IH; [by rewrite <- app_assoc|].
    intros k' Hk'. apply Hks. by right.
Qed.

Lemma deleted_loop_omap B ks acc :
  (∀ k, k ∈ ks → is_Some (B !! k)) →
  deleted_loop B ks acc = Ok (acc ++ omap (deleted_entry B) ks).
Proof.
  revert acc. induction ks as [|k ks IH]; intros acc Hks; simpl.
  - by rewrite app_nil_r.
  - destruct (Hks k) as [b Hb]; [left|].
    unfold subscript, deleted_entry at 1. rewrite Hb. simpl.
    rewrite IH; [by rewrite <- app_assoc|].
    intros k' Hk'. apply Hks. by right.
Qed.

Lemma modified_loop_omap B C ks acc :
  (∀ k, k ∈ ks → is_Some (B !! k) ∧ is_Some (C !! k)) →
  modified_loop B C ks acc = Ok (acc ++ omap (modified_entry B C) ks).
Proof.
  revert acc. induction ks as [|k ks IH]; intros acc Hks; simpl.
  - by rewrite app_nil_r.
  - destruct (Hks k) as [[b Hb] [c Hc]]; [left|].
    assert (Hrest : ∀ k', k' ∈ ks → is_Some (B !! k') ∧ is_Some (C !! k'))
      by (intros k' Hk'; apply Hks; by right).
    unfold subscript, modified_entry at 1. rewrite Hb, Hc. simpl.
    destruct (bool_decide (rec_hash b ≠ rec_hash c)); rewrite IH by done.
    + by rewrite <- app_assoc.
    + done.
Qed.

Lemma compare_diff_of baseline C :
  compare_baseline_and_current baseline C = Ok (diff_of (base_files_of baseline) C).
Proof.
  unfold compare_baseline_and_current.
  rewrite added_loop_omap, deleted_loop_omap, modified_loop_omap; [done|..].
  - intros k Hk. apply elem_of_elements, elem_of_intersection in Hk.
    by rewrite <- !elem_of_dom.
  - intros k Hk. apply elem_of_elements, elem_of_difference in Hk.
    apply elem_of_dom, Hk.
  - intros k Hk. apply elem_of_elements, elem_of_difference in Hk.
    apply elem_of_dom, Hk.
Qed.

Lemma elem_of_added B C k r :
  {| a_path := k; a_current := r |} ∈ added (diff_of B C) ↔
  C !! k = Some r ∧ B !! k = None.
Proof.
  simpl. rewrite list_elem_of_omap. split.
  - intros (k' & Hk' & He). apply elem_of_elements, elem_of_difference in Hk'.
    destruct Hk' as [_ HB]. apply not_elem_of_dom in HB.
    unfold added_entry in He. destruct (C !! k') as [c|] eqn:Hc; by simplify_eq/=.
  - intros [HC HB]. exists k. split.
    + apply elem_of_elements, elem_of_difference. split.
      * by apply elem_of_dom.
      * by apply not_elem_of_dom.
    + unfold added_entry. by rewrite HC.
Qed.

Lemma elem_of_deleted B C k r :
  {| d_path := k; d_baseline := r |} ∈ deleted (diff_of B C) ↔
  B !! k = Some r ∧ C !! k = None.
Proof.
  simpl. rewrite list_elem_of_omap. split.
  - intros (k' & Hk' & He). apply elem_of_elements, elem_of_difference in Hk'.
    destruct Hk' as [_ HC]. apply not_elem_of_dom in HC.
    unfold deleted_entry in He. destruct (B !! k') as [b|] eqn:Hb; by simplify_eq/=.
  - intros [HB HC]. exists k. split.
    + apply elem_of_elements, elem_of_difference. split.
      * by apply elem_of_dom.
      * by apply not_elem_of_dom.
    + unfold deleted_entry. by rewrite HB.
Qed.

Lemma modified_entry_Some B C k e :
  modified_entry B C k = Some e ↔
  m_path e = k ∧ B !! k = Some (m_baseline e) ∧ C !! k = Some (m_current e)
  ∧ rec_hash (m_baseline e) ≠ rec_hash (m_current e).
Proof.
  unfold modified_entry. split.
  - intros He. destruct (B !! k) as [b|]; simpl in He; [|done].
    destruct (C !! k) as [c|]; simpl in He; [|done].
    destruct (decide (rec_hash b ≠ rec_hash c)) as [Hne|Heq];
      [rewrite bool_decide_true in He by done
      |rewrite bool_decide_false in He by done]; [|discriminate He].
    injection He as <-. done.
  - intros (<- & -> & -> & Hne). simpl. rewrite bool_decide_true by done.
    by destruct e.
Qed.

Lemma elem_of_modified B C k rb rc :
  {| m_path := k; m_baseline := rb; m_current := rc |} ∈ modified (diff_of B C) ↔
  B !! k = Some rb ∧ C !! k = Some rc ∧ rec_hash rb ≠ rec_hash rc.
Proof.
  simpl. rewrite list_elem_of_omap. split.
  - intros (k' & _ & He). apply modified_entry_Some in He. simpl in He.
    destruct He as (<- & ? & ? & ?). done.
  - intros (HB & HC & Hne). exists k. split.
    + apply elem_of_elements, elem_of_intersection.
      split; by apply elem_of_dom.
    + apply modified_entry_Some. done.
Qed.

(** The paths of the entries built from a list of keys are those keys, in
    order, less the keys that produced no entry. *)
Lemma omap_paths_sublist {E} (f : string → option E) (path : E → string) ks :
  (∀ k e, f k = Some e → path e = k) →
  (path <$> omap f ks) `sublist_of` ks.
Proof.
  intros Hf. induction ks as [|k ks IH]; [done|].
  simpl. destruct (f k) as [e|] eqn:He; simpl.
  - rewrite (Hf _ _ He). by apply sublist_skip.
  - by apply sublist_cons.
Qed.

Lemma added_entry_path C k e : added_entry C k = Some e → a_path e = k.
Proof. unfold added_entry. destruct (C !! k); simpl; [|done]. by intros [= <-]. Qed.

Lemma deleted_entry_path B k e : deleted_entry B k = Some e → d_path e = k.
Proof. unfold deleted_entry. destruct (B !! k); simpl; [|done]. by intros [= <-]. Qed.

Lemma modified_entry_path B C k e : modified_entry B C k = Some e → m_path e = k.
Proof. intros He. apply modified_entry_Some in He. tauto. Qed.

Lemma diff_of_paths_NoDup B C : NoDup (diff_paths (diff_of B C)).
Proof.
  unfold diff_paths.
  pose proof (omap_paths_sublist (added_entry C) a_path
                (elements (dom C ∖ dom B)) (added_entry_path C)) as Ha.
  pose proof (omap_paths_sublist (deleted_entry B) d_path
                (elements (dom B ∖ dom C)) (deleted_entry_path B)) as Hd.
  pose proof (omap_paths_sublist (modified_entry B C) m_path
                (elements (dom B ∩ dom C)) (modified_entry_path B C)) as Hm.
  simpl. apply NoDup_app. split; [|split].
  - exact (sublist_NoDup _ _ (NoDup_elements _) Ha).
  - intros k Hka Hk. eapply elem_of_sublist in Hka; [|done].
    apply elem_of_elements, elem_of_difference in Hka.
    apply elem_of_app in Hk. destruct Hk as [Hk|Hk].
    + eapply elem_of_sublist in Hk; [|done].
      apply elem_of_elements, elem_of_difference in Hk. tauto.
    + eapply elem_of_sublist in Hk; [|done].
      apply elem_of_elements, elem_of_intersection in Hk. tauto.
  - apply NoDup_app. split; [|split].
    + exact (sublist_NoDup _ _ (NoDup_elements _) Hd).
    + intros k Hkd Hk. eapply elem_of_sublist in Hkd; [|done].
      apply elem_of_elements, elem_of_difference in Hkd.
      eapply elem_of_sublist in Hk; [|done].
      apply elem_of_elements, elem_of_intersection in Hk. tauto.
    + exact (sublist_NoDup _ _ (NoDup_elements _) Hm).
Qed.

Lemma omap_all_None {E} (f : string → option E) ks :
  (∀ k, f k = None) → omap f ks = [].
Proof.
  intros Hf. induction ks as [|k ks IH]; [done|]. simpl. by rewrite Hf.
Qed.

Lemma base_files_of_files m B :
  base_files_of (Some {| meta := m; files := Some B |}) = B.
Proof. unfold base_files_of, dict_truthy. simpl. by destruct m. Qed.

Lemma base_files_of_no_files m :
  base_files_of (Some {| meta := m; files := None |}) = ∅.
Proof. unfold base_files_of, dict_truthy. simpl. by destruct m. Qed.

(** C1: the diff classifies by path-key set algebra.  [added] holds
    exactly the paths of the current mapping absent from the baseline, each
    with the current record; [deleted] exactly the paths of the baseline
    absent from the current mapping, each with the baseline record;
    [modified] exactly the common paths whose hashes differ.  A common
    path whose hashes agree is not in [modified], whatever its size and
    modification time. *)
Theorem compare_classifies_by_key_sets (m : option Meta) B C :
  ∃ d, compare_baseline_and_current (Some {| meta := m; files := Some B |}) C = Ok d
    ∧ (∀ k r, {| a_path := k; a_current := r |} ∈ added d
              ↔ C !! k = Some r ∧ B !! k = None)
    ∧ (∀ k r, {| d_path := k; d_baseline := r |} ∈ deleted d
              ↔ B !! k = Some r ∧ C !! k = None)
    ∧ (∀ k rb rc, {| m_path := k; m_baseline := rb; m_current := rc |} ∈ modified d
              ↔ B !! k = Some rb ∧ C !! k = Some rc ∧ rec_hash rb ≠ rec_hash rc)
    ∧ (∀ k rb rc, B !! k = Some rb → C !! k = Some rc →
                  rec_hash rb = rec_hash rc → k ∉ m_path <$> modified d).
Proof.
  exists (diff_of B C). rewrite compare_diff_of, base_files_of_files.
  split; [done|]. split; [apply elem_of_added|]. split; [apply elem_of_deleted|].
  split; [apply elem_of_modified|].
  intros k rb rc HB HC Heq Hin. apply list_elem_of_fmap in Hin.
  destruct Hin as ([k' rb' rc'] & -> & Hin). simpl in *.
  apply elem_of_modified in Hin. destruct Hin as (HB' & HC' & Hne).
  rewrite HB in HB'. rewrite HC in HC'. congruence.
Qed.

(** C2: a snapshot diffed against a baseline whose ['files'] is that same
    snapshot gives three empty lists.  This holds of every mapping, hence
    of every one a scan returns. *)
Theorem compare_self_is_empty (m : option Meta) (S : gmap string FileRecord) :
  compare_baseline_and_current (Some {| meta := m; files := Some S |}) S
  = Ok {| added := []; deleted := []; modified := [] |}.
Proof.
  rewrite compare_diff_of, base_files_of_files. unfold diff_of.
  rewrite difference_diag_L, elements_empty. simpl. do 2 f_equal.
  apply omap_all_None. intros k. unfold modified_entry.
  destruct (S !! k) as [r|]; simpl; [|done].
  rewrite bool_decide_false; [done|]. by intros Hne.
Qed.

(** C3: the three lists of a diff are disjoint and free of repetition:
    listing the paths of [added], then of [deleted], then of [modified],
    no path comes twice. *)
Theorem compare_lists_disjoint (baseline : option Baseline) C :
  ∃ d, compare_baseline_and_current baseline C = Ok d ∧ NoDup (diff_paths d).
Proof.
  eexists. split; [apply compare_diff_of|]. apply diff_of_paths_NoDup.
Qed.

(** C10: with no baseline, or a baseline dictionary without a ['files']
    key, the comparison does not raise: the baseline's file set is empty,
    every path of the current mapping is reported as added, once, with its
    record, and nothing is reported as deleted or modified. *)
Theorem compare_without_baseline_files C :
  all_reported_added C (compare_baseline_and_current None C)
  ∧ ∀ m, all_reported_added C
           (compare_baseline_and_current (Some {| meta := m; files := None |}) C).
Proof.
  assert (all_reported_added C (Ok (diff_of ∅ C))) as Hempty.
  { split; [|split; [|split]].
    - intros k r. rewrite elem_of_added, lookup_empty. tauto.
    - pose proof (diff_of_paths_NoDup ∅ C) as Hnd. unfold diff_paths in Hnd.
      apply NoDup_app in Hnd. tauto.
    - unfold diff_of. simpl.
      by rewrite dom_empty_L, empty_difference_L, elements_empty.
    - unfold diff_of. simpl.
      by rewrite dom_empty_L, intersection_empty_l_L, elements_empty. }
  split; [|intros m]; rewrite compare_diff_of; [done|].
  by rewrite base_files_of_no_files.
Qed.

End diff.




(** ** The monad and the walk *)

Section walk.
Context `{Platform}.

Lemma bind_run {A B} (m : M A) (k : A → M B) env w :
  (m ≫= k) env w =
  match m env w with
  | (Ok a, w') => k a env w'
  | (Raise e, w') => (Raise e, w')
  end.
Proof. reflexivity. Qed.

Lemma emit_run ev env w : emit ev env w = (Ok (), add_trace w [ev]).
Proof. reflexivity. Qed.

Lemma out_map_Ok {A B} (f : A → B) a w : out_map f (Ok a, w) = (Ok (f a), w).
Proof. reflexivity. Qed.

Lemma out_map_Raise {A B} (f : A → B) e w : out_map f (Raise e, w) = (Raise e, w).
Proof. reflexivity. Qed.

(** Induction on a tree, with the hypothesis for every entry of a
    directory. *)
Lemma node_ind' (P : node → Prop) :
  P File → P Sealed →
  (∀ entries, Forall (λ e, P e.2) entries → P (Dir entries)) →
  ∀ n, P n.
Proof.
  intros HF HS HD. fix IH 1. intros [| entries |]; [exact HF | | exact HS].
  apply HD. induction entries as [|e entries IHes]; constructor; [apply IH | exact IHes].
Qed.

Lemma os_walk_Dir {S} body top entries (s : S) env w :
  os_walk body top (Dir entries) s env w =
  (_ ← emit (EvScandir top);
   r ← body top (List.filter (λ e, is_dir e.2) entries).*1
               (List.filter (λ e, negb (is_dir e.2)) entries).*1 s;
   descend (os_walk body) top r.1 entries r.2) env w.
Proof. reflexivity. Qed.

Lemma descend_cons {S} (walk : string → node → S → M S) top dirs e entries s env w :
  descend walk top dirs (e :: entries) s env w =
  if is_dir e.2 && bool_decide (e.1 ∈ dirs)
  then (s' ← walk (path_join top e.1) e.2 s; descend walk top dirs entries s') env w
  else descend walk top dirs entries s env w.
Proof. simpl. by destruct (is_dir e.2 && bool_decide (e.1 ∈ dirs)). Qed.

(** Two walks whose bodies agree up to a map [f] on the carried state agree
    up to [f]. *)
Lemma os_walk_map {S T} (f : S → T) body_s body_t :
  (∀ root dirs files s env w,
     body_t root dirs files (f s) env w
     = out_map (λ r, (r.1, f r.2)) (body_s root dirs files s env w)) →
  ∀ n top s env w,
    os_walk body_t top n (f s) env w = out_map f (os_walk body_s top n s env w).
Proof.
  intros Hbody. induction n as [| | entries IH] using node_ind'; intros top s env w;
    [done | done |].
  rewrite !os_walk_Dir, !bind_run. simpl. rewrite !bind_run, Hbody.
  destruct (body_s _ _ _ _ _ _) as [[[dirs s1]|e] w1]; [|done].
  rewrite out_map_Ok. simpl. clear Hbody.
  revert s1 w1. induction IH as [|e entries He _ IHes]; intros s1 w1; [done|].
  rewrite !descend_cons. destruct (is_dir e.2 && bool_decide (e.1 ∈ dirs)); [|apply IHes].
  rewrite !bind_run, He.
  destruct (os_walk body_s _ _ _ _ _) as [[s2|e2] w2]; [|done].
  rewrite out_map_Ok. apply IHes.
Qed.

End walk.

(** ** HashEngine *)

(** The reads deliver the whole of the data, in order, whatever the chunk
    size; then comes the fault, if there is one. *)
Lemma read_loop_all n fault rest h :
  read_loop n fault rest h
  = match fault with
    | Some e => Raise e
    | None => Ok (h ++ rest)
    end.
Proof.
  funelim (read_loop n fault rest h).
  - rewrite H. destruct fault; [done|]. f_equal.
    rewrite <- Hc, <- app_assoc. unfold file_read. simpl. by rewrite take_drop.
  - done.
  - clear H Heqcall. unfold file_read in e. simpl in e.
    destruct rest as [|b rest]; [by rewrite app_nil_r|].
    destruct (Pos.to_nat n) eqn:Hn; [lia | discriminate e].
Qed.

Section hash.
Context `{Platform}.

(** What [compute_sha256] returns, case by case. *)
Lemma compute_sha256_run path env w :
  compute_sha256 path env w
  = (match read_failure (file_at env path) with
     | None => Ok (sha256_hexdigest (io_data (file_at env path)))
     | Some e =>
         if bool_decide (e = PermissionError) || bool_decide (e = FileNotFoundError)
         then Ok (sentinel e) else Raise e
     end, add_trace w [EvOpen path]).
Proof.
  unfold compute_sha256, try_except, open_and_read, read_failure.
  rewrite !bind_run. simpl. rewrite !bind_run. simpl.
  destruct (io_open (file_at env path)) as [e|]; simpl.
  - by destruct (bool_decide (e = PermissionError) || bool_decide (e = FileNotFoundError)).
  - unfold lift_res. rewrite read_loop_all.
    destruct (io_fault (file_at env path)) as [e|]; simpl; [|done].
    by destruct (bool_decide (e = PermissionError) || bool_decide (e = FileNotFoundError)).
Qed.

Lemma get_file_metadata_run path env w :
  get_file_metadata path env w
  = (match stat_at env path with
     | Ok st => Ok {| md_size := Some (st_size st); md_mtime := Some (st_mtime st) |}
     | Raise e =>
         if is_Exception e then Ok {| md_size := None; md_mtime := None |} else Raise e
     end, add_trace w [EvStat path]).
Proof.
  unfold get_file_metadata, try_except, os_stat. rewrite !bind_run. simpl.
  rewrite ?bind_run. simpl. unfold lift_res.
  destruct (stat_at env path) as [st|e]; simpl; [done|]. by destruct (is_Exception e).
Qed.

End hash.

(** ** PathScanner *)

Section scan.
Context `{Platform}.

Lemma build_baseline_files_scan_files target pats root fs m cur env w :
  build_baseline_files target pats root fs (document m cur) env w
  = out_map (document m) (scan_files target pats root fs cur env w).
Proof.
  revert cur w. induction fs as [|f fs IH]; intros cur w; [done|].
  simpl. destruct (should_exclude (path_join root f) pats); [apply IH|].
  rewrite !bind_run.
  destruct (relpath _ _ env w) as [[rel|e] w1]; [|done].
  rewrite !bind_run.
  destruct (compute_sha256 _ env w1) as [[h|e] w2]; [|done].
  rewrite !bind_run.
  destruct (get_file_metadata _ env w2) as [[md|e] w3]; [|done].
  rewrite bind_run. simpl. apply IH.
Qed.

(** [build_baseline] is [scan_current_state] followed by the construction
    and the writing of the document. *)
Lemma build_baseline_scan target baseline_file pats env w :
  build_baseline target baseline_file pats env w
  = (cur ← scan_current_state target pats;
     root ← normalize_path target;
     let doc := document (Some {| generated_at := utcnow_isoformat env +:+ "Z";
                                  root := root |}) cur in
     _ ← write_json baseline_file doc;
     mret doc) env w.
Proof.
  unfold build_baseline, scan_current_state. rewrite !bind_run. simpl.
  rewrite !bind_run. simpl. rewrite !bind_run.
  set (m := Some _). set (target' := path_normpath _).
  change {| meta := m; files := Some ∅ |} with (document m ∅).
  rewrite (os_walk_map (document m)
             (λ root dirs files cur,
                cur ← scan_files target' pats root files cur;
                mret (prune_dirs pats root dirs, cur))).
  - destruct (os_walk _ _ _ _ _ _) as [[cur|e] w1]; [|done].
    rewrite out_map_Ok, !bind_run. simpl. rewrite !bind_run. done.
  - intros root dirs files cur env' w'.
    rewrite !bind_run, build_baseline_files_scan_files.
    by destruct (scan_files _ _ _ _ _ _ _) as [[cur'|e] w1].
Qed.

Lemma scan_current_state_walk target pats env w :
  scan_current_state target pats env w
  = let top := path_normpath (path_abspath (cwd env) target) in
    os_walk (scan_visit top pats) top (tree_at env top) ∅ env w.
Proof. reflexivity. Qed.

Lemma should_exclude_false pats path :
  should_exclude path pats = false ↔ unmatched pats path.
Proof.
  unfold unmatched. induction pats as [|pat pats IH]; simpl.
  - split; [|done]. intros _ pat Hpat. by apply elem_of_nil in Hpat.
  - destruct (fnmatch path pat) eqn:Hp; simpl.
    { split; [done|]. intros Hall. destruct (Hall pat) as [Hf _]; [left|]. congruence. }
    destruct (fnmatch (path_basename path) pat) eqn:Hb; simpl.
    { split; [done|]. intros Hall. destruct (Hall pat) as [_ Hf]; [left|]. congruence. }
    rewrite IH. split.
    + intros Hall pat' Hpat'. apply elem_of_cons in Hpat'.
      destruct Hpat' as [->|Hpat']; [done|]. by apply Hall.
    + intros Hall pat' Hpat'. apply Hall. by right.
Qed.

(** [should_exclude] holds when some pattern matches the path or its base
    name. *)
Lemma should_exclude_true pats path :
  should_exclude path pats = true
  ↔ ∃ pat, pat ∈ pats
           ∧ (fnmatch path pat = true ∨ fnmatch (path_basename path) pat = true).
Proof.
  induction pats as [|pat pats IH]; simpl.
  - split; [done|]. intros (pat & Hpat & _). by apply elem_of_nil in Hpat.
  - destruct (fnmatch path pat) eqn:Hp; simpl.
    { split; [|done]. intros _. exists pat. split; [left | by left]. }
    destruct (fnmatch (path_basename path) pat) eqn:Hb; simpl.
    { split; [|done]. intros _. exists pat. split; [left | by right]. }
    rewrite IH. split.
    + intros (pat' & Hpat' & Hm). exists pat'. split; [by right | done].
    + intros (pat' & Hpat' & Hm). apply elem_of_cons in Hpat'.
      destruct Hpat' as [->|Hpat']; [|by exists pat'].
      destruct Hm; congruence.
Qed.

Lemma same_outside_Dir pats top es es' :
  same_outside_excluded pats top (Dir es) (Dir es')
  ↔ Forall2 (same_entry pats top) es es'.
Proof.
  simpl. revert es'. induction es as [|e es IH]; intros [|e' es'].
  - split; [constructor | done].
  - split; [done | inversion 1].
  - split; [done | inversion 1].
  - rewrite Forall2_cons, <- IH. done.
Qed.

Lemma same_entries_dirs pats top es es' p :
  Forall2 (same_entry pats top) es es' →
  (List.filter (λ e, p (is_dir e.2)) es).*1 = (List.filter (λ e, p (is_dir e.2)) es').*1.
Proof.
  induction 1 as [|e e' es es' (Hname & Hdir & _) _ IH]; [done|].
  simpl. rewrite <- Hdir. destruct (p (is_dir e.2)); [|exact IH].
  rewrite !fmap_cons. by f_equal.
Qed.

Lemma elem_of_prune_dirs pats root dirs d :
  d ∈ prune_dirs pats root dirs → should_exclude (path_join root d) pats = false.
Proof.
  unfold prune_dirs. rewrite list_elem_of_In, filter_In.
  intros [_ Hd]. by apply negb_true_iff in Hd.
Qed.

(** The walk of a scan does not tell apart two trees that differ only
    inside excluded directories. *)
Lemma os_walk_same_outside target pats n :
  ∀ n' top cur env w,
    same_outside_excluded pats top n n' →
    os_walk (scan_visit target pats) top n cur env w
    = os_walk (scan_visit target pats) top n' cur env w.
Proof.
  induction n as [| | es IH] using node_ind'; intros [| es' |] top cur env w Hsame;
    try done.
  apply same_outside_Dir in Hsame.
  pose proof (same_entries_dirs pats top es es' (λ b, b) Hsame) as Hd1.
  pose proof (same_entries_dirs pats top es es' negb Hsame) as Hd2.
  simpl in Hd1, Hd2.
  rewrite !os_walk_Dir, !bind_run. simpl. rewrite !bind_run, Hd1, Hd2.
  destruct (scan_visit _ _ _ _ _ _ _ _) as [[[dirs cur1]|e] w1] eqn:Hvisit; [|done].
  assert (Hdirs : ∀ d, d ∈ dirs → should_exclude (path_join top d) pats = false).
  { unfold scan_visit in Hvisit. rewrite bind_run in Hvisit.
    destruct (scan_files _ _ _ _ _ _ _) as [[cur2|e] w2]; [|done].
    injection Hvisit as <- _ _. intros d. apply elem_of_prune_dirs. }
  simpl. clear Hvisit Hd1 Hd2. revert cur1 w1.
  induction Hsame as [|e e' es es' (Hname & Hdir & Hsub) _ IHes]; intros cur1 w1; [done|].
  apply Forall_cons in IH. destruct IH as [IHe IH].
  rewrite !descend_cons, <- Hname, <- Hdir.
  destruct (is_dir e.2) eqn:Hd; simpl; [|by apply IHes].
  case_bool_decide as Hin; [|by apply IHes].
  rewrite (Hdirs _ Hin) in Hsub. simpl in Hsub.
  rewrite !bind_run, <- (IHe _ _ _ _ _ Hsub).
  destruct (os_walk _ _ _ _ _ _) as [[cur2|e2] w2]; [|done].
  by apply IHes.
Qed.

Lemma add_trace_nil w : add_trace w [] = w.
Proof. destruct w. unfold add_trace. simpl. by rewrite app_nil_r. Qed.

Lemma add_trace_app w evs1 evs2 :
  add_trace (add_trace w evs1) evs2 = add_trace w (evs1 ++ evs2).
Proof. unfold add_trace. simpl. by rewrite app_assoc. Qed.

Lemma compute_sha256_world path env w :
  (compute_sha256 path env w).2 = add_trace w [EvOpen path].
Proof. by rewrite compute_sha256_run. Qed.

Lemma get_file_metadata_world path env w :
  (get_file_metadata path env w).2 = add_trace w [EvStat path].
Proof. by rewrite get_file_metadata_run. Qed.

Lemma permitted_below pats top top' ev :
  unmatched pats top' → permitted pats top' ev → permitted pats top ev.
Proof. intros Hun. destruct ev; simpl; [|done..]. intros [->|?]; by right. Qed.

Lemma scan_spec_ret {A} (get : A → gmap string FileRecord) pats target top env a w :
  scan_spec get pats target top env (get a) w (Ok a, w).
Proof.
  exists []. rewrite add_trace_nil. split; [done|]. split; [constructor|].
  intros a' [= <-] k rec Hk. by left.
Qed.

(** A stretch followed by a stretch is a stretch. *)
Lemma scan_spec_bind {A B} (getA : A → gmap string FileRecord)
    (getB : B → gmap string FileRecord) pats target top env cur w
    (m : M A) (k : A → M B) :
  scan_spec getA pats target top env cur w (m env w) →
  (∀ a w1, scan_spec getB pats target top env (getA a) w1 (k a env w1)) →
  scan_spec getB pats target top env cur w ((m ≫= k) env w).
Proof.
  intros (evs1 & Hw1 & Hev1 & Hcur1) Hk. rewrite bind_run.
  destruct (m env w) as [[a|e] w1]; simpl in *.
  - destruct (Hk a w1) as (evs2 & Hw2 & Hev2 & Hcur2).
    exists (evs1 ++ evs2). subst w1. rewrite add_trace_app in Hw2.
    split; [done|]. split; [by apply Forall_app|].
    intros b Hb key rec Hkey. destruct (Hcur2 b Hb key rec Hkey) as [Hold|Hnew].
    + destruct (Hcur1 a eq_refl key rec Hold) as [?|(full & ? & ? & ?)]; [by left|].
      right. exists full. rewrite elem_of_app. eauto.
    + destruct Hnew as (full & ? & ? & ?).
      right. exists full. rewrite elem_of_app. eauto.
  - exists evs1. split; [done|]. split; [done|]. by intros b.
Qed.

Lemma scan_files_spec target pats top root files env cur w :
  scan_spec id pats target top env cur w (scan_files target pats root files cur env w).
Proof.
  revert cur w. induction files as [|f files IH]; intros cur w; simpl.
  - apply (scan_spec_ret id).
  - destruct (should_exclude (path_join root f) pats) eqn:Hex; [apply IH|].
    apply should_exclude_false in Hex.
    rewrite bind_run. unfold relpath at 1. rewrite bind_run. simpl.
    set (full := path_join root f) in *.
    pose proof (compute_sha256_world full env w) as Hw1.
    rewrite bind_run. destruct (compute_sha256 full env w) as [[h|e] w1]; simpl in Hw1.
    2:{ exists [EvOpen full]. split; [done|]. split; [|done].
        apply Forall_singleton. exact Hex. }
    assert (Forall (permitted pats top) [EvOpen full; EvStat full]) as Hboth.
    { apply Forall_cons. split; [exact Hex|]. apply Forall_singleton. exact Hex. }
    pose proof (get_file_metadata_world full env w1) as Hw2.
    rewrite bind_run. destruct (get_file_metadata full env w1) as [[md|e] w2]; simpl in Hw2.
    2:{ exists [EvOpen full; EvStat full]. subst. rewrite add_trace_app.
        split; [done|]. split; [exact Hboth | done]. }
    destruct (IH (<[path_relpath (cwd env) full target :=
                    {| rec_hash := Some h; rec_size := md_size md;
                       rec_mtime := md_mtime md |}]> cur) w2)
      as (evs & Hw3 & Hev & Hcur).
    exists ([EvOpen full; EvStat full] ++ evs). subst w2 w1.
    split; [by rewrite Hw3, !add_trace_app|].
    split; [by apply Forall_app|].
    intros cur' Hcur' k rec Hk. destruct (Hcur cur' Hcur' k rec Hk) as [Hold|Hnew].
    + destruct (decide (k = path_relpath (cwd env) full target)) as [->|Hne].
      * right. exists full. split; [done|]. split; [done|].
        apply elem_of_app. left. apply elem_of_cons. by left.
      * rewrite lookup_insert_ne in Hold by done. by left.
    + destruct Hnew as (full' & ? & ? & ?). right. exists full'.
      split; [done|]. split; [done|]. apply elem_of_app. by right.
Qed.

Lemma bind_assoc_run {A B C} (m : M A) (f : A → M B) (g : B → M C) env w :
  ((m ≫= f) ≫= g) env w = (m ≫= λ a, f a ≫= g) env w.
Proof. rewrite !bind_run. by destruct (m env w) as [[a|e] w1]. Qed.

Lemma scan_spec_below {A} (get : A → gmap string FileRecord) pats target top top'
    env cur w out :
  unmatched pats top' →
  scan_spec get pats target top' env cur w out →
  scan_spec get pats target top env cur w out.
Proof.
  intros Hun (evs & Hw & Hev & Hcur). exists evs. split; [done|]. split; [|done].
  eapply Forall_impl; [exact Hev|]. intros ev. by apply permitted_below.
Qed.

Lemma scan_spec_emit_scandir pats target top env cur w :
  scan_spec (λ _ : (), cur) pats target top env cur w (emit (EvScandir top) env w).
Proof.
  exists [EvScandir top]. split; [done|]. split.
  - apply Forall_singleton. by left.
  - intros [] _ k rec Hk. by left.
Qed.

Lemma descend_spec target pats top dirs entries :
  (∀ d, d ∈ dirs → unmatched pats (path_join top d)) →
  Forall (λ e, ∀ top cur env w,
            scan_spec id pats target top env cur w
              (os_walk (scan_visit target pats) top e.2 cur env w)) entries →
  ∀ cur env w,
    scan_spec id pats target top env cur w
      (descend (os_walk (scan_visit target pats)) top dirs entries cur env w).
Proof.
  intros Hdirs. induction 1 as [|e entries He _ IH]; intros cur env w.
  - apply (scan_spec_ret id).
  - rewrite descend_cons. destruct (is_dir e.2); simpl; [|apply IH].
    case_bool_decide as Hin; [|apply IH].
    apply (scan_spec_bind id id); [|intros cur1 w1; apply IH].
    eapply scan_spec_below; [by apply Hdirs | apply He].
Qed.

(** What follows the listing of a directory: the loop body, then the
    directories it kept. *)
Lemma os_walk_tail_spec target pats top entries cur env w :
  Forall (λ e, ∀ top cur env w,
            scan_spec id pats target top env cur w
              (os_walk (scan_visit target pats) top e.2 cur env w)) entries →
  scan_spec id pats target top env cur w
    ((r ← scan_visit target pats top
            (List.filter (λ e, is_dir e.2) entries).*1
            (List.filter (λ e, negb (is_dir e.2)) entries).*1 cur;
      descend (os_walk (scan_visit target pats)) top r.1 entries r.2) env w).
Proof.
  intros IH. unfold scan_visit. rewrite bind_assoc_run.
  apply (scan_spec_bind id id); [apply scan_files_spec|].
  intros cur1 w2. rewrite bind_run. simpl.
  apply descend_spec; [|exact IH].
  intros d Hd. apply elem_of_prune_dirs in Hd. by apply should_exclude_false.
Qed.

(** A scan only lists directories and reads files that no pattern
    matches, and only reports files it has read. *)
Lemma os_walk_spec target pats n :
  ∀ top cur env w,
    scan_spec id pats target top env cur w
      (os_walk (scan_visit target pats) top n cur env w).
Proof.
  induction n as [| | entries IH] using node_ind'; intros top cur env w.
  - apply (scan_spec_bind (λ _ : (), cur) id); [apply scan_spec_emit_scandir|].
    intros [] w1. apply (scan_spec_ret id).
  - apply (scan_spec_bind (λ _ : (), cur) id); [apply scan_spec_emit_scandir|].
    intros [] w1. apply (scan_spec_ret id).
  - rewrite os_walk_Dir.
    apply (scan_spec_bind (λ _ : (), cur) id); [apply scan_spec_emit_scandir|].
    intros [] w1. by apply os_walk_tail_spec.
Qed.

(** Every scan begins by listing its root: a world whose trace has not
    grown has seen no scan. *)
Lemma scan_current_state_lists_root target pats env w :
  ∃ evs, trace (scan_current_state target pats env w).2
         = trace w ++ EvScandir (path_normpath (path_abspath (cwd env) target)) :: evs.
Proof.
  rewrite scan_current_state_walk. simpl.
  set (top := path_normpath _).
  destruct (tree_at env top) as [| entries |]; [by exists [] | | by exists []].
  rewrite os_walk_Dir, bind_run, emit_run.
  destruct (os_walk_tail_spec top pats top entries ∅ env
              (add_trace w [EvScandir top])) as (evs & -> & _).
  - apply Forall_forall. intros e _. apply os_walk_spec.
  - exists evs. simpl. by rewrite <- app_assoc.
Qed.

Lemma os_walk_env {S} (body : string → list string → list string → S → M (list string * S)) tree' :
  (∀ root dirs files s env w,
     body root dirs files s (with_tree env tree') w = body root dirs files s env w) →
  ∀ n top s env w,
    os_walk body top n s (with_tree env tree') w = os_walk body top n s env w.
Proof.
  intros Hbody. induction n as [| | entries IH] using node_ind'; intros top s env w;
    [done | done |].
  rewrite !os_walk_Dir, !bind_run. simpl. rewrite !bind_run, Hbody.
  destruct (body _ _ _ _ _ _) as [[[dirs s1]|e] w1]; [|done].
  simpl. clear Hbody. revert s1 w1.
  induction IH as [|e entries He _ IHes]; intros s1 w1; [done|].
  rewrite !descend_cons. destruct (is_dir e.2 && bool_decide (e.1 ∈ dirs)); [|apply IHes].
  rewrite !bind_run, He.
  destruct (os_walk body _ _ _ _ _) as [[s2|e2] w2]; [|done].
  apply IHes.
Qed.

Lemma compute_sha256_env path env tree' w :
  compute_sha256 path (with_tree env tree') w = compute_sha256 path env w.
Proof.
  unfold compute_sha256, try_except, open_and_read. rewrite !bind_run. simpl.
  rewrite !bind_run. simpl. by destruct (io_open (file_at env path)).
Qed.

Lemma get_file_metadata_env path env tree' w :
  get_file_metadata path (with_tree env tree') w = get_file_metadata path env w.
Proof.
  unfold get_file_metadata, try_except, os_stat. rewrite !bind_run. simpl.
  by rewrite ?bind_run.
Qed.

Lemma scan_files_env target pats root files cur env tree' w :
  scan_files target pats root files cur (with_tree env tree') w
  = scan_files target pats root files cur env w.
Proof.
  revert cur w. induction files as [|f files IH]; intros cur w; [done|].
  simpl. destruct (should_exclude _ _); [apply IH|].
  rewrite !bind_run. simpl. rewrite !bind_run, compute_sha256_env.
  destruct (compute_sha256 _ env _) as [[h|e] w1]; [|done].
  rewrite !bind_run, get_file_metadata_env.
  destruct (get_file_metadata _ env _) as [[md|e] w2]; [|done].
  apply IH.
Qed.

(** C7, as the code has it: exclusion prunes the directories met below the
    scan root and filters files.  A scan does not tell apart two trees that
    differ only in what lies, at any depth, inside sub-directories whose
    full path or base name matches a pattern: it returns the same snapshot
    and lists, opens and stats the same paths, so such a directory
    contributes nothing and nothing below it is visited, hashed or
    reported.  Every entry of the snapshot is keyed by the relative path of
    a file the scan opened, no pattern matching that file's full path or
    its base name; every directory listed below the root and every file
    opened or stat'ed is likewise unmatched.  The root itself is not tested
    against the patterns: whatever they are, the scan begins by listing
    it. *)
Theorem exclusion_prunes_and_filters target pats env w tree' :
  let top := path_normpath (path_abspath (cwd env) target) in
  same_outside_excluded pats top (tree_at env top) tree' →
  scan_current_state target pats (with_tree env tree') w
  = scan_current_state target pats env w
  ∧ ∃ evs, (scan_current_state target pats env w).2 = add_trace w (EvScandir top :: evs)
      ∧ Forall (permitted pats top) evs
      ∧ ∀ cur, (scan_current_state target pats env w).1 = Ok cur →
          ∀ k rec, cur !! k = Some rec →
            ∃ full, k = path_relpath (cwd env) full top
                    ∧ unmatched pats full ∧ EvOpen full ∈ evs.
Proof.
  intros top Hsame. split.
  - rewrite !scan_current_state_walk. simpl. fold top. rewrite os_walk_env.
    + symmetry. by apply os_walk_same_outside.
    + intros root dirs files cur env' w'. unfold scan_visit.
      by rewrite !bind_run, scan_files_env.
  - destruct (scan_current_state_lists_root target pats env w) as (evs' & Hroot).
    fold top in Hroot. revert Hroot. rewrite !scan_current_state_walk. simpl. fold top.
    destruct (os_walk_spec top pats (tree_at env top) top ∅ env w)
      as (evs & Hw & Hev & Hcur).
    rewrite Hw. simpl. intros Hroot. apply app_inv_head in Hroot. subst evs.
    exists evs'. split; [done|]. apply Forall_cons in Hev as [_ Hev]. split; [done|].
    intros cur Hcur' k rec Hk.
    destruct (Hcur cur Hcur' k rec Hk) as [Hempty|(full & Hfull & Hun & Hin)].
    + by rewrite lookup_empty in Hempty.
    + exists full. split; [done|]. split; [done|].
      apply elem_of_cons in Hin as [Hin|Hin]; [done|done].
Qed.

(** A walk whose loop body always returns, returns. *)
Lemma os_walk_total {S} (body : string → list string → list string → S → M (list string * S))
    env :
  (∀ root dirs files s w, ∃ r w', body root dirs files s env w = (Ok r, w')) →
  ∀ n top s w, ∃ s' w', os_walk body top n s env w = (Ok s', w').
Proof.
  intros Hbody. induction n as [| | entries IH] using node_ind'; intros top s w;
    [by eexists _, _ | by eexists _, _ |].
  rewrite os_walk_Dir, bind_run, emit_run, bind_run.
  destruct (Hbody top (List.filter (λ e, is_dir e.2) entries).*1
              (List.filter (λ e, negb (is_dir e.2)) entries).*1 s
              (add_trace w [EvScandir top])) as ([dirs s1] & w1 & ->).
  simpl. clear Hbody. revert s1 w1.
  induction IH as [|e entries He _ IHes]; intros s1 w1; [by eexists _, _|].
  rewrite descend_cons. destruct (is_dir e.2 && bool_decide (e.1 ∈ dirs)); [|apply IHes].
  rewrite bind_run. destruct (He (path_join top e.1) s1 w1) as (s2 & w2 & ->).
  apply IHes.
Qed.

Lemma handled_by_compute_sha256_true e :
  handled_by_compute_sha256 e →
  bool_decide (e = PermissionError) || bool_decide (e = FileNotFoundError) = true.
Proof. by intros [-> | ->]. Qed.

Lemma compute_sha256_total path env w :
  (∀ e, read_failure (file_at env path) = Some e → handled_by_compute_sha256 e) →
  compute_sha256 path env w
  = (Ok match read_failure (file_at env path) with
        | Some e => sentinel e
        | None => sha256_hexdigest (io_data (file_at env path))
        end, add_trace w [EvOpen path]).
Proof.
  intros Hh. rewrite compute_sha256_run.
  destruct (read_failure (file_at env path)) as [e|]; [|done].
  by rewrite handled_by_compute_sha256_true by by apply Hh.
Qed.

Lemma scan_files_total target pats root files cur env w :
  failures_handled env →
  ∃ cur' w', scan_files target pats root files cur env w = (Ok cur', w').
Proof.
  intros [Hread Hstat]. revert cur w.
  induction files as [|f files IH]; intros cur w; simpl; [by eexists _, _|].
  destruct (should_exclude _ _); [apply IH|].
  rewrite !bind_run. simpl. rewrite bind_run, compute_sha256_total by apply Hread.
  rewrite bind_run, get_file_metadata_run.
  destruct (stat_at env _) as [st|e] eqn:Hst; [apply IH|].
  rewrite (Hstat _ _ Hst). apply IH.
Qed.

Lemma scan_current_state_total target pats env w :
  failures_handled env →
  ∃ cur w', scan_current_state target pats env w = (Ok cur, w').
Proof.
  intros Hh. rewrite scan_current_state_walk. simpl. apply os_walk_total.
  intros root dirs files cur w1. unfold scan_visit. rewrite bind_run.
  destruct (scan_files_total (path_normpath (path_abspath (cwd env) target)) pats
              root files cur env w1 Hh) as (cur' & w' & ->).
  by eexists _, _.
Qed.

(** C9: on the same directory state and with the same patterns, the
    ['files'] mapping of the document [build_baseline] returns is the mapping
    [scan_current_state] returns: whenever [build_baseline] returns, the scan
    returns that mapping, and whenever the scan returns and the document can
    be written, [build_baseline] returns a document holding that mapping. *)
Theorem build_baseline_files_equal_scan target baseline_file pats env w :
  (∀ b w', build_baseline target baseline_file pats env w = (Ok b, w') →
     ∃ cur w1, scan_current_state target pats env w = (Ok cur, w1)
               ∧ files b = Some cur)
  ∧ (∀ cur w1, scan_current_state target pats env w = (Ok cur, w1) →
     write_fault env = None →
     ∃ b w', build_baseline target baseline_file pats env w = (Ok b, w')
             ∧ files b = Some cur).
Proof.
  rewrite build_baseline_scan, bind_run. split.
  - intros b w' Hb. destruct (scan_current_state _ _ _ _) as [[cur|e] w1]; [|done].
    exists cur, w1. split; [done|].
    rewrite !bind_run in Hb. simpl in Hb. rewrite bind_run in Hb.
    destruct (write_json _ _ _ _) as [[[]|e] w2]; [|done].
    by injection Hb as <- _.
  - intros cur w1 -> Hw. rewrite !bind_run. simpl. rewrite bind_run.
    unfold write_json at 1. rewrite bind_run. simpl. rewrite Hw, bind_run. simpl.
    eauto.
Qed.

End scan.

Lemma build_baseline_files_equal_scan_witness :
  ∃ b cur w' w1,
    build_baseline (H:=Posix.posix) "data" "baseline.json" ["cache"]
      Sample.env Sample.world = (Ok b, w')
    ∧ scan_current_state (H:=Posix.posix) "data" ["cache"] Sample.env Sample.world
      = (Ok cur, w1)
    ∧ files b = Some cur.
Proof.
  destruct (build_baseline_files_equal_scan (H:=Posix.posix) "data" "baseline.json"
              ["cache"] Sample.env Sample.world) as [Hbuild _].
  let r := eval vm_compute in
    (build_baseline (H:=Posix.posix) "data" "baseline.json" ["cache"]
       Sample.env Sample.world) in
  match r with
  | (Ok ?b, ?w') =>
      destruct (Hbuild b w') as (cur & w1 & Hscan & Hfiles);
        [vm_compute; reflexivity|];
      exists b, cur, w', w1; split; [vm_compute; reflexivity|];
      split; [exact Hscan | exact Hfiles]
  end.
Defined.

(** ** BaselineStore and reporting *)

Section report.
Context `{Platform}.

Lemma add_log_nil w : add_log w [] = w.
Proof. destruct w. unfold add_log. simpl. by rewrite app_nil_r. Qed.

Lemma add_log_app w r1 r2 : add_log (add_log w r1) r2 = add_log w (r1 ++ r2).
Proof. unfold add_log. simpl. by rewrite app_assoc. Qed.

Lemma logger_log_run lv msg env w : logger_log lv msg env w = (Ok (), add_log w [(lv, msg)]).
Proof. reflexivity. Qed.

Lemma load_baseline_run baseline_file env w :
  load_baseline baseline_file env w
  = (match store w !! baseline_file with
     | None => Ok None
     | Some (Holds doc) => Ok (Some doc)
     | Some Truncated => Raise JSONDecodeError
     end, w).
Proof.
  unfold load_baseline, try_except, read_json. rewrite bind_run.
  by destruct (store w !! baseline_file) as [[doc|]|].
Qed.

Lemma log_added_run l changes env w :
  ∃ records, log_added l changes env w
             = (Ok (changes + Z.of_nat (length l))%Z, add_log w records).
Proof.
  revert changes w. induction l as [|a l IH]; intros changes w; simpl.
  - exists []. by rewrite add_log_nil, Z.add_0_r.
  - rewrite bind_run, logger_log_run. destruct (IH (changes + 1)%Z (add_log w
      [(INFO, "ADDED: " +:+ a_path a +:+ " | hash=" +:+ fmt_opt (rec_hash (a_current a)))]))
      as (records & ->).
    eexists. rewrite add_log_app. do 2 f_equal. lia.
Qed.

Lemma log_deleted_run l changes env w :
  ∃ records, log_deleted l changes env w
             = (Ok (changes + Z.of_nat (length l))%Z, add_log w records).
Proof.
  revert changes w. induction l as [|d l IH]; intros changes w; simpl.
  - exists []. by rewrite add_log_nil, Z.add_0_r.
  - rewrite bind_run, logger_log_run. destruct (IH (changes + 1)%Z (add_log w
      [(INFO, "DELETED: " +:+ d_path d +:+ " | old_hash="
                +:+ fmt_opt (rec_hash (d_baseline d)))]))
      as (records & ->).
    eexists. rewrite add_log_app. do 2 f_equal. lia.
Qed.

Lemma log_modified_run l changes env w :
  ∃ records, log_modified l changes env w
             = (Ok (changes + Z.of_nat (length l))%Z, add_log w records).
Proof.
  revert changes w. induction l as [|m l IH]; intros changes w; simpl.
  - exists []. by rewrite add_log_nil, Z.add_0_r.
  - rewrite bind_run, logger_log_run. destruct (IH (changes + 1)%Z (add_log w
      [(INFO, "MODIFIED: " +:+ m_path m +:+ " | old_hash="
                +:+ fmt_opt (rec_hash (m_baseline m)) +:+ " | new_hash="
                +:+ fmt_opt (rec_hash (m_current m)))]))
      as (records & ->).
    eexists. rewrite add_log_app. do 2 f_equal. lia.
Qed.

(** [print_and_log_diffs] returns the number of entries of the diff, and
    only writes to the log. *)
Lemma print_and_log_diffs_run diffs env w :
  ∃ records, print_and_log_diffs diffs env w
             = (Ok (Z.of_nat (diff_size diffs)), add_log w records).
Proof.
  unfold print_and_log_diffs, diff_size.
  assert (∃ r1, (match added diffs with
                 | [] => mret 0%Z
                 | _ => _ ← logger_log INFO "=== Added Files ===";
                        log_added (added diffs) 0%Z
                 end) env w = (Ok (Z.of_nat (length (added diffs))), add_log w r1))
    as (r1 & H1).
  { destruct (added diffs) as [|a l] eqn:Ha.
    - exists []. by rewrite add_log_nil.
    - rewrite bind_run, logger_log_run.
      destruct (log_added_run (a :: l) 0%Z env (add_log w [(INFO, "=== Added Files ===")]))
        as (records & ->).
      eexists. by rewrite add_log_app. }
  rewrite bind_run, H1. clear H1. set (w1 := add_log w r1).
  set (c1 := Z.of_nat (length (added diffs))).
  assert (∃ r2, (match deleted diffs with
                 | [] => mret c1
                 | _ => _ ← logger_log INFO "=== Deleted Files ===";
                        log_deleted (deleted diffs) c1
                 end) env w1
                = (Ok (c1 + Z.of_nat (length (deleted diffs)))%Z, add_log w1 r2))
    as (r2 & H2).
  { destruct (deleted diffs) as [|d l] eqn:Hd.
    - exists []. by rewrite add_log_nil, Z.add_0_r.
    - rewrite bind_run, logger_log_run.
      destruct (log_deleted_run (d :: l) c1 env (add_log w1 [(INFO, "=== Deleted Files ===")]))
        as (records & ->).
      eexists. by rewrite add_log_app. }
  rewrite bind_run, H2. clear H2. set (w2 := add_log w1 r2).
  set (c2 := (c1 + Z.of_nat (length (deleted diffs)))%Z).
  assert (∃ r3, (match modified diffs with
                 | [] => mret c2
                 | _ => _ ← logger_log INFO "=== Modified Files ===";
                        log_modified (modified diffs) c2
                 end) env w2
                = (Ok (c2 + Z.of_nat (length (modified diffs)))%Z, add_log w2 r3))
    as (r3 & H3).
  { destruct (modified diffs) as [|m l] eqn:Hm.
    - exists []. by rewrite add_log_nil, Z.add_0_r.
    - rewrite bind_run, logger_log_run.
      destruct (log_modified_run (m :: l) c2 env
                  (add_log w2 [(INFO, "=== Modified Files ===")]))
        as (records & ->).
      eexists. by rewrite add_log_app. }
  rewrite bind_run, H3. clear H3. rewrite bind_run.
  replace (c2 + Z.of_nat (length (modified diffs)))%Z
    with (Z.of_nat (length (added diffs) + length (deleted diffs)
                    + length (modified diffs))) by (unfold c2, c1; lia).
  unfold w2, w1. rewrite !add_log_app.
  destruct (_ =? 0)%Z.
  - rewrite logger_log_run, add_log_app. by eexists.
  - by eexists.
Qed.


(** Setting up the logger returns or raises, and leaves the world as it
    was. *)
Lemma setup_logger_run log_file env w :
  setup_logger log_file env w
  = (match log_file with
     | Some path =>
         if String.eqb path "" then Ok ()
         else match log_fault env path with
              | Some e => Raise e
              | None => Ok ()
              end
     | None => Ok ()
     end, w).
Proof.
  unfold setup_logger. destruct log_file as [path|]; [|done].
  destruct (String.eqb path ""); [done|]. rewrite bind_run. simpl.
  by destruct (log_fault env path).
Qed.

Lemma setup_logger_opens log_file env w :
  log_file_opens env log_file → setup_logger log_file env w = (Ok (), w).
Proof.
  intros Hopens. rewrite setup_logger_run. destruct log_file as [path|]; [|done].
  simpl in Hopens. destruct (String.eqb path "") eqn:Hpath; [done|].
  apply String.eqb_neq in Hpath. by rewrite (Hopens Hpath).
Qed.

Lemma setup_logger_fails path e env w :
  path ≠ "" → log_fault env path = Some e →
  setup_logger (Some path) env w = (Raise e, w).
Proof.
  intros Hpath Hfault. rewrite setup_logger_run.
  apply String.eqb_neq in Hpath. by rewrite Hpath, Hfault.
Qed.


End report.

(** ** MonitorLoop and persistence *)

Section monitor.
Context `{Platform}.

Lemma write_json_run baseline_file doc env w :
  write_json baseline_file doc env w
  = match write_fault env with
    | None => (Ok (), set_store w (<[baseline_file := Holds doc]> (store w)))
    | Some (AtOpen, e) => (Raise e, w)
    | Some (DuringDump, e) =>
        (Raise e, set_store w (<[baseline_file := Truncated]> (store w)))
    end.
Proof.
  unfold write_json. rewrite bind_run. simpl.
  destruct (write_fault env) as [[[] e]|]; [done | done |].
  rewrite bind_run. unfold set_store, set_stored. simpl. by rewrite insert_insert_eq.
Qed.

Lemma write_json_in_place baseline_file doc env w :
  overwritten_in_place baseline_file doc env (store w)
    (store (write_json baseline_file doc env w).2).
Proof.
  rewrite write_json_run. unfold overwritten_in_place.
  by destruct (write_fault env) as [[[] e]|].
Qed.

Lemma scan_current_state_store target pats env w :
  store (scan_current_state target pats env w).2 = store w.
Proof.
  rewrite scan_current_state_walk. simpl.
  destruct (os_walk_spec (path_normpath (path_abspath (cwd env) target)) pats
              (tree_at env (path_normpath (path_abspath (cwd env) target)))
              (path_normpath (path_abspath (cwd env) target)) ∅ env w)
    as (evs & -> & _). done.
Qed.

Lemma monitor_detect_store target pats baseline env w :
  store (monitor_detect target pats baseline env w).2 = store w.
Proof.
  unfold monitor_detect. rewrite bind_run.
  pose proof (scan_current_state_store target pats env w) as Hs.
  destruct (scan_current_state target pats env w) as [[cur|e] w1]; [|done].
  rewrite bind_run, compare_diff_of. unfold lift_res. rewrite bind_run.
  destruct (print_and_log_diffs_run (diff_of (base_files_of (Some baseline)) cur) env w1)
    as (records & ->).
  done.
Qed.

(** One turn in which changes were found and auto-update is on. *)
Lemma monitor_cycle_update target baseline_file interval pats baseline env w
    cur changes w1 :
  monitor_detect target pats baseline env w = (Ok (cur, changes), w1) →
  (0 < changes)%Z →
  monitor_cycle target baseline_file interval true pats baseline env w
  = (updated_baseline target env cur,
     (_ ← monitor_persist baseline_file (updated_baseline target env cur);
      time_sleep interval) env w1).
Proof.
  intros Hdetect Hchanges. unfold monitor_cycle. rewrite Hdetect.
  apply Z.ltb_lt in Hchanges. by rewrite Hchanges.
Qed.

Lemma monitor_persist_run baseline_file doc env w :
  monitor_persist baseline_file doc env w
  = match write_fault env with
    | None =>
        (Ok (), add_log (set_store w (<[baseline_file := Holds doc]> (store w)))
                  [(INFO, "Baseline auto-updated after change.")])
    | Some (AtOpen, e) => (Raise e, w)
    | Some (DuringDump, e) =>
        (Raise e, set_store w (<[baseline_file := Truncated]> (store w)))
    end.
Proof.
  unfold monitor_persist. rewrite bind_run, write_json_run.
  by destruct (write_fault env) as [[[] e]|].
Qed.

Lemma time_sleep_world interval env w : (time_sleep interval env w).2 = w.
Proof.
  unfold time_sleep. destruct (_ || _); [done|]. destruct (interval <? 0)%Z; [done|].
  rewrite bind_run. simpl. by destruct (sleep_interrupted env).
Qed.

(** C6, as the code has it: both persistence sites, [build_baseline] and
    the auto-update of the monitor, overwrite the baseline file in place.
    If the write completes the file holds the whole new document; if the
    file cannot be opened it keeps what it held; if the write stops after
    the file was opened the file holds the beginning of a document, and
    loading it raises [JSONDecodeError] rather than returning the old or
    the new baseline. *)
Theorem baseline_overwritten_in_place target baseline_file interval pats env w :
  (∀ cur w1,
     scan_current_state target pats env w = (Ok cur, w1) →
     overwritten_in_place baseline_file (updated_baseline target env cur) env (store w)
       (store (build_baseline target baseline_file pats env w).2))
  ∧ (∀ baseline cur changes w1,
       monitor_detect target pats baseline env w = (Ok (cur, changes), w1) →
       (0 < changes)%Z →
       overwritten_in_place baseline_file (updated_baseline target env cur) env (store w)
         (store (monitor_cycle target baseline_file interval true pats baseline env w).2.2))
  ∧ (∀ env' w',
       load_baseline baseline_file env' w'
       = (match store w' !! baseline_file with
          | None => Ok None
          | Some (Holds doc) => Ok (Some doc)
          | Some Truncated => Raise JSONDecodeError
          end, w')).
Proof.
  split; [|split].
  - intros cur w1 Hscan. rewrite build_baseline_scan, bind_run.
    pose proof (scan_current_state_store target pats env w) as Hstore.
    rewrite Hscan in *. simpl in Hstore. rewrite <- Hstore.
    rewrite bind_run. simpl. rewrite bind_run.
    fold (updated_baseline target env cur).
    pose proof (write_json_in_place baseline_file (updated_baseline target env cur) env w1)
      as Hw.
    by destruct (write_json _ _ _ _) as [[[]|e] w2].
  - intros baseline cur changes w1 Hdetect Hchanges.
    rewrite (monitor_cycle_update _ _ _ _ _ _ _ _ _ _ Hdetect Hchanges). simpl.
    pose proof (monitor_detect_store target pats baseline env w) as Hstore.
    rewrite Hdetect in Hstore. simpl in Hstore. rewrite <- Hstore.
    rewrite bind_run, monitor_persist_run. unfold overwritten_in_place.
    destruct (write_fault env) as [[[] e]|]; [done | done |].
    by rewrite time_sleep_world.
  - intros env' w'. apply load_baseline_run.
Qed.

(** C8, as the code has it: when the write of the auto-update raises
    anything but [KeyboardInterrupt], the exception leaves [monitor_loop]
    uncaught, without a log record, and the loop ends there, whatever turns
    would have followed.  The local [baseline] had been assigned the new
    document before the write was attempted. *)
Theorem persistence_failure_ends_monitor target baseline_file interval pats
    baseline env turns w cur changes w1 stage e :
  monitor_detect target pats baseline env w = (Ok (cur, changes), w1) →
  (0 < changes)%Z →
  write_fault env = Some (stage, e) →
  e ≠ KeyboardInterrupt →
  monitor_while target baseline_file interval true pats baseline (env :: turns) w
  = (Uncaught e (Some (updated_baseline target env cur)),
     match stage with
     | AtOpen => w1
     | DuringDump => set_store w1 (<[baseline_file := Truncated]> (store w1))
     end).
Proof.
  intros Hdetect Hchanges Hfault He. simpl.
  rewrite (monitor_cycle_update _ _ _ _ _ _ _ _ _ _ Hdetect Hchanges).
  rewrite bind_run, monitor_persist_run, Hfault.
  destruct stage; by rewrite bool_decide_false.
Qed.

End monitor.

(** ** DiffEngine: further properties *)

Section diff_more.
Implicit Types (B C : gmap string FileRecord) (ks : list string).

Lemma omap_None_on {E} (f : string → option E) ks :
  (∀ k, k ∈ ks → f k = None) → omap f ks = [].
Proof.
  induction ks as [|k ks IH]; intros Hf; [done|]. simpl.
  rewrite (Hf k) by left. apply IH. intros k' Hk'. apply Hf. by right.
Qed.

Lemma omap_single {E} (f : string → option E) ks k e :
  NoDup ks → k ∈ ks → f k = Some e →
  (∀ k', k' ∈ ks → k' ≠ k → f k' = None) →
  omap f ks = [e].
Proof.
  induction ks as [|k0 ks IH]; intros Hnd Hin Hk Hothers.
  - by apply elem_of_nil in Hin.
  - apply NoDup_cons in Hnd. destruct Hnd as [Hk0 Hnd]. simpl.
    destruct (decide (k0 = k)) as [->|Hne].
    + rewrite Hk. f_equal. apply omap_None_on. intros k' Hk'.
      apply Hothers; [by right|]. by intros ->.
    + rewrite (Hothers k0) by (done || left). apply IH; try done.
      * apply elem_of_cons in Hin. by destruct Hin as [->|].
      * intros k' Hk'. apply Hothers. by right.
Qed.

Lemma list_empty_no_elem {A} (l : list A) : (∀ x, x ∉ l) → l = [].
Proof. destruct l as [|x l]; [done|]. intros Hl. destruct (Hl x). left. Qed.

Lemma compare_document m B C :
  compare_baseline_and_current (Some (document m B)) C = Ok (diff_of B C).
Proof. unfold document. by rewrite compare_diff_of, base_files_of_files. Qed.

(** X1: the diff is empty exactly when the two mappings have the same paths
    and, path by path, the same hash. *)
Theorem compare_empty_iff m B C :
  compare_baseline_and_current (Some (document m B)) C
  = Ok {| added := []; deleted := []; modified := [] |}
  ↔ dom B = dom C
    ∧ ∀ k rb rc, B !! k = Some rb → C !! k = Some rc → rec_hash rb = rec_hash rc.
Proof.
  rewrite compare_document. split.
  - intros [= Ha Hd Hm].
    assert (∀ k, k ∈ dom C → k ∈ dom B) as HCB.
    { intros k [r Hr]%elem_of_dom. apply elem_of_dom.
      destruct (B !! k) as [rb|] eqn:Hb; [done|]. exfalso.
      assert ({| a_path := k; a_current := r |} ∈ added (diff_of B C)) as Hin
        by by apply elem_of_added.
      simpl in Hin. rewrite Ha in Hin. by apply elem_of_nil in Hin. }
    assert (∀ k, k ∈ dom B → k ∈ dom C) as HBC.
    { intros k [r Hr]%elem_of_dom. apply elem_of_dom.
      destruct (C !! k) as [rc|] eqn:Hc; [done|]. exfalso.
      assert ({| d_path := k; d_baseline := r |} ∈ deleted (diff_of B C)) as Hin
        by by apply elem_of_deleted.
      simpl in Hin. rewrite Hd in Hin. by apply elem_of_nil in Hin. }
    split; [apply set_eq; intros k; split; auto|].
    intros k rb rc Hb Hc. destruct (decide (rec_hash rb = rec_hash rc)) as [|Hne]; [done|].
    exfalso.
    assert ({| m_path := k; m_baseline := rb; m_current := rc |}
            ∈ modified (diff_of B C)) as Hin by by apply elem_of_modified.
    simpl in Hin. rewrite Hm in Hin. by apply elem_of_nil in Hin.
  - intros [Hdom Hhash]. unfold diff_of.
    rewrite Hdom, difference_diag_L, elements_empty. simpl. do 2 f_equal.
    apply omap_None_on. intros k _. unfold modified_entry.
    destruct (B !! k) as [rb|] eqn:Hb; simpl; [|done].
    destruct (C !! k) as [rc|] eqn:Hc; simpl; [|done].
    rewrite bool_decide_false; [done|]. intros Hne. apply Hne. by eapply Hhash.
Qed.

(** X2: exchanging the two sides exchanges [added] and [deleted] and turns
    every modified entry around. *)
Theorem compare_swap m m' B C :
  ∃ d d',
    compare_baseline_and_current (Some (document m B)) C = Ok d
    ∧ compare_baseline_and_current (Some (document m' C)) B = Ok d'
    ∧ (∀ k r, {| a_path := k; a_current := r |} ∈ added d
              ↔ {| d_path := k; d_baseline := r |} ∈ deleted d')
    ∧ (∀ k r, {| d_path := k; d_baseline := r |} ∈ deleted d
              ↔ {| a_path := k; a_current := r |} ∈ added d')
    ∧ (∀ k rb rc, {| m_path := k; m_baseline := rb; m_current := rc |} ∈ modified d
              ↔ {| m_path := k; m_baseline := rc; m_current := rb |} ∈ modified d').
Proof.
  exists (diff_of B C), (diff_of C B). rewrite !compare_document.
  split; [done|]. split; [done|]. split; [|split].
  - intros k r. by rewrite elem_of_added, elem_of_deleted.
  - intros k r. by rewrite elem_of_added, elem_of_deleted.
  - intros k rb rc. rewrite !elem_of_modified. split.
    + intros (? & ? & Hne). split; [done|]. split; [done|]. by intros Heq.
    + intros (? & ? & Hne). split; [done|]. split; [done|]. by intros Heq.
Qed.

(** X3: a file that moves from path [a] to path [b] is one deletion and one
    addition, whatever its content: it is never reported as modified. *)
Theorem compare_rename m (M : gmap string FileRecord) a b ra rb :
  M !! a = None → M !! b = None → a ≠ b →
  compare_baseline_and_current (Some (document m (<[a := ra]> M))) (<[b := rb]> M)
  = Ok {| added := [{| a_path := b; a_current := rb |}];
          deleted := [{| d_path := a; d_baseline := ra |}];
          modified := [] |}.
Proof.
  intros Ha Hb Hab. rewrite compare_document. unfold diff_of.
  apply not_elem_of_dom in Ha, Hb.
  replace (dom (<[b:=rb]> M) ∖ dom (<[a:=ra]> M)) with ({[b]} : gset string)
    by (rewrite !dom_insert_L; set_solver).
  replace (dom (<[a:=ra]> M) ∖ dom (<[b:=rb]> M)) with ({[a]} : gset string)
    by (rewrite !dom_insert_L; set_solver).
  replace (dom (<[a:=ra]> M) ∩ dom (<[b:=rb]> M)) with (dom M)
    by (rewrite !dom_insert_L; set_solver).
  rewrite !elements_singleton. simpl.
  unfold added_entry, deleted_entry. rewrite !lookup_insert_eq. simpl.
  do 2 f_equal. apply omap_None_on. intros k Hk%elem_of_elements.
  unfold modified_entry.
  rewrite !lookup_insert_ne by (intros ->; done).
  destruct (M !! k) as [r|]; simpl; [|done].
  rewrite bool_decide_false; [done|]. by intros Hne.
Qed.

(** X4: one file written at path [k]: if the baseline does not know the path,
    the diff is that one addition; if it knows it with another hash, that one
    modification; with the same hash, nothing. *)
Theorem compare_single_write m B k r :
  compare_baseline_and_current (Some (document m B)) (<[k := r]> B)
  = Ok match B !! k with
       | None =>
           {| added := [{| a_path := k; a_current := r |}];
              deleted := []; modified := [] |}
       | Some rb =>
           {| added := []; deleted := [];
              modified := if bool_decide (rec_hash rb ≠ rec_hash r)
                          then [{| m_path := k; m_baseline := rb; m_current := r |}]
                          else [] |}
       end.
Proof.
  rewrite compare_document. unfold diff_of. f_equal.
  assert (∀ k', k' ≠ k → modified_entry B (<[k:=r]> B) k' = None) as Hother.
  { intros k' Hne. unfold modified_entry. rewrite lookup_insert_ne by done.
    destruct (B !! k') as [r'|]; simpl; [|done].
    rewrite bool_decide_false; [done|]. by intros ?. }
  destruct (B !! k) as [rb|] eqn:Hk.
  - assert (k ∈ dom B) as Hin by by apply elem_of_dom.
    replace (dom (<[k:=r]> B) ∖ dom B) with (∅ : gset string)
      by (rewrite dom_insert_L; set_solver).
    replace (dom B ∖ dom (<[k:=r]> B)) with (∅ : gset string)
      by (rewrite dom_insert_L; set_solver).
    replace (dom B ∩ dom (<[k:=r]> B)) with (dom B)
      by (rewrite dom_insert_L; set_solver).
    rewrite elements_empty. simpl. f_equal.
    destruct (decide (rec_hash rb ≠ rec_hash r)) as [Hne|Heq].
    + rewrite bool_decide_true by done.
      apply (omap_single _ _ k); [apply NoDup_elements | by apply elem_of_elements | |].
      * unfold modified_entry. rewrite Hk, lookup_insert_eq. simpl.
        by rewrite bool_decide_true.
      * intros k' _. apply Hother.
    + rewrite bool_decide_false by done. apply omap_None_on. intros k' _.
      destruct (decide (k' = k)) as [->|Hne]; [|by apply Hother].
      unfold modified_entry. rewrite Hk, lookup_insert_eq. simpl.
      by rewrite bool_decide_false.
  - assert (k ∉ dom B) as Hin by by apply not_elem_of_dom.
    replace (dom (<[k:=r]> B) ∖ dom B) with ({[k]} : gset string)
      by (rewrite dom_insert_L; set_solver).
    replace (dom B ∖ dom (<[k:=r]> B)) with (∅ : gset string)
      by (rewrite dom_insert_L; set_solver).
    replace (dom B ∩ dom (<[k:=r]> B)) with (dom B)
      by (rewrite dom_insert_L; set_solver).
    rewrite elements_empty, elements_singleton. simpl.
    unfold added_entry at 1. rewrite lookup_insert_eq. simpl. f_equal.
    apply omap_None_on. intros k' Hk'%elem_of_elements. apply Hother. by intros ->.
Qed.

(** X5: one baselined file removed: the diff is that one deletion. *)
Theorem compare_single_removal m B k rb :
  B !! k = Some rb →
  compare_baseline_and_current (Some (document m B)) (delete k B)
  = Ok {| added := []; deleted := [{| d_path := k; d_baseline := rb |}];
          modified := [] |}.
Proof.
  intros Hk. rewrite compare_document. unfold diff_of.
  assert (k ∈ dom B) as Hin by by apply elem_of_dom.
  replace (dom (delete k B) ∖ dom B) with (∅ : gset string)
    by (rewrite dom_delete_L; set_solver).
  replace (dom B ∖ dom (delete k B)) with ({[k]} : gset string).
  2:{ rewrite dom_delete_L. apply set_eq. intros k'.
      rewrite elem_of_difference, elem_of_difference, elem_of_singleton.
      split; [intros ->; split; [done|]; intros [_ Hn]; by apply Hn|].
      intros [Hk' Hn]. destruct (decide (k' = k)); [done|]. destruct Hn. by split. }
  rewrite elements_empty, elements_singleton. simpl.
  unfold deleted_entry at 1. rewrite Hk. simpl. do 2 f_equal.
  apply omap_None_on. intros k' Hk'%elem_of_elements%elem_of_intersection.
  destruct Hk' as [_ Hk']. rewrite dom_delete_L in Hk'.
  apply elem_of_difference in Hk'. destruct Hk' as [_ Hne].
  unfold modified_entry. rewrite lookup_delete_ne by (intros ->; apply Hne; by apply elem_of_singleton).
  destruct (B !! k') as [r'|]; simpl; [|done].
  rewrite bool_decide_false; [done|]. by intros ?.
Qed.

Lemma length_omap_Some {E} (f : string → option E) ks :
  (∀ k, k ∈ ks → is_Some (f k)) → length (omap f ks) = length ks.
Proof.
  induction ks as [|k ks IH]; intros Hf; [done|]. simpl.
  destruct (Hf k) as [e ->]; [left|]. simpl. f_equal. apply IH.
  intros k' Hk'. apply Hf. by right.
Qed.

Lemma size_difference_inter (X Y : gset string) :
  size (X ∖ Y) + size (X ∩ Y) = size X.
Proof.
  rewrite <- size_union by set_solver. f_equal. apply set_eq. intros k.
  rewrite elem_of_union, elem_of_difference, elem_of_intersection.
  destruct (decide (k ∈ Y)); naive_solver.
Qed.

Lemma size_difference_inter_r (X Y : gset string) :
  size (X ∖ Y) + size (Y ∩ X) = size X.
Proof.
  rewrite <- size_union by set_solver. f_equal. apply set_eq. intros k.
  rewrite elem_of_union, elem_of_difference, elem_of_intersection.
  destruct (decide (k ∈ Y)); naive_solver.
Qed.

(** X6: paths are conserved: the current mapping has as many paths as the
    baseline, plus the added ones, minus the deleted ones. *)
Theorem compare_conserves_paths m B C :
  ∃ d, compare_baseline_and_current (Some (document m B)) C = Ok d
    ∧ size C + length (deleted d) = size B + length (added d).
Proof.
  exists (diff_of B C). rewrite compare_document. split; [done|].
  unfold diff_of. simpl. rewrite !length_omap_Some.
  - change (length (elements ?X)) with (size X).
    pose proof (size_difference_inter (dom B) (dom C)) as HB.
    pose proof (size_difference_inter_r (dom C) (dom B)) as HC.
    rewrite <- (size_dom B), <- (size_dom C). lia.
  - intros k [Hk _]%elem_of_elements%elem_of_difference.
    apply elem_of_dom in Hk. destruct Hk as [r Hr].
    unfold added_entry. rewrite Hr. by eexists.
  - intros k [Hk _]%elem_of_elements%elem_of_difference.
    apply elem_of_dom in Hk. destruct Hk as [r Hr].
    unfold deleted_entry. rewrite Hr. by eexists.
Qed.

End diff_more.

(** ** PathScanner: what a scan reads and reports *)

Section scan_more.
Context `{Platform}.

Lemma opened_app evs1 evs2 : opened (evs1 ++ evs2) = opened evs1 ++ opened evs2.
Proof. unfold opened. apply omap_app. Qed.

Lemma scan_outcome_ext target env kept cur (m m' : M (gmap string FileRecord)) :
  (∀ w, m' env w = m env w) →
  scan_outcome target env kept cur m → scan_outcome target env kept cur m'.
Proof.
  intros Hext (r & evs & Hrun & Hiff & Hok). exists r, evs. split; [|done].
  intros w. by rewrite Hext.
Qed.

Lemma scan_outcome_ret target env cur :
  scan_outcome target env [] cur (mret cur).
Proof.
  exists (Ok cur), []. split; [|split].
  - intros w. by rewrite add_trace_nil.
  - split; [by intros _ | by eexists].
  - intros cur' [= <-]. split; [done|]. split; [|by left].
    rewrite fmap_nil, list_to_set_nil. by rewrite (right_id_L ∅ (∪)).
Qed.

(** A stretch followed by a stretch. *)
Lemma scan_outcome_seq target env kept1 kept2 cur
    (m : M (gmap string FileRecord))
    (k : gmap string FileRecord → M (gmap string FileRecord)) :
  scan_outcome target env kept1 cur m →
  (∀ cur1, scan_outcome target env kept2 cur1 (k cur1)) →
  scan_outcome target env (kept1 ++ kept2) cur (m ≫= k).
Proof.
  intros (r1 & evs1 & Hrun1 & Hiff1 & Hok1) Hk. destruct r1 as [cur1|e].
  - destruct (Hk cur1) as (r2 & evs2 & Hrun2 & Hiff2 & Hok2).
    exists r2, (evs1 ++ evs2). split; [|split].
    + intros w. by rewrite bind_run, Hrun1, Hrun2, add_trace_app.
    + rewrite Forall_app, <- Hiff1, <- Hiff2. split; [|tauto].
      intros Hr2. split; [by eexists | done].
    + intros cur2 Hr2. destruct (Hok1 cur1 eq_refl) as (Ho1 & Hd1 & Hv1).
      destruct (Hok2 cur2 Hr2) as (Ho2 & Hd2 & Hv2).
      split; [by rewrite opened_app, Ho1, Ho2|]. split.
      * rewrite Hd2, Hd1, fmap_app, list_to_set_app_L. by rewrite (assoc_L (∪)).
      * intros key rec Hkey. destruct (Hv2 key rec Hkey) as [Hold|?]; [|by right].
        by apply Hv1.
  - exists (Raise e), evs1. split; [|split; [|done]].
    + intros w. by rewrite bind_run, Hrun1.
    + rewrite Forall_app, <- Hiff1. split; [by intros [? ?] | tauto].
Qed.

(** Listing a directory opens nothing. *)
Lemma scan_outcome_scandir target env kept cur top (m : M (gmap string FileRecord)) :
  scan_outcome target env kept cur m →
  scan_outcome target env kept cur (_ ← emit (EvScandir top); m).
Proof.
  intros (r & evs & Hrun & Hiff & Hok). exists r, (EvScandir top :: evs).
  split; [|split; [done|]].
  - intros w. by rewrite bind_run, emit_run, Hrun, add_trace_app.
  - intros cur' Hr. destruct (Hok cur' Hr) as (Ho & Hd & Hv). done.
Qed.

Lemma kept_in_dir_cons pats root f files :
  kept_in_dir pats root (f :: files)
  = if should_exclude (path_join root f) pats then kept_in_dir pats root files
    else path_join root f :: kept_in_dir pats root files.
Proof.
  unfold kept_in_dir. simpl. by destruct (should_exclude (path_join root f) pats).
Qed.

Lemma compute_sha256_traced path env :
  ∃ r, (∀ w, compute_sha256 path env w = (r, add_trace w [EvOpen path]))
       ∧ ((∃ h, r = Ok h)
          ↔ ∀ e, read_failure (file_at env path) = Some e → handled_by_compute_sha256 e).
Proof.
  eexists. split; [intros w; apply compute_sha256_run|].
  destruct (read_failure (file_at env path)) as [e|].
  - destruct (decide (e = PermissionError)) as [->|Hp].
    { split; [|by eexists]. intros _ e [= <-]. by left. }
    destruct (decide (e = FileNotFoundError)) as [->|Hf].
    { split; [|by eexists]. intros _ e [= <-]. by right. }
    rewrite !bool_decide_false by done. simpl. split; [by intros [? ?]|].
    intros He. destruct (He e eq_refl); done.
  - split; [done | by eexists].
Qed.

Lemma get_file_metadata_traced path env :
  ∃ r, (∀ w, get_file_metadata path env w = (r, add_trace w [EvStat path]))
       ∧ ((∃ md, r = Ok md) ↔ ∀ e, stat_at env path = Raise e → is_Exception e = true)
       ∧ ∀ md, r = Ok md → (is_Some (md_size md) ↔ is_Some (md_mtime md)).
Proof.
  eexists. split; [intros w; apply get_file_metadata_run|].
  destruct (stat_at env path) as [st|e].
  - split; [split; [done | by eexists]|].
    intros md [= <-]. simpl. split; eauto.
  - destruct (is_Exception e) eqn:He.
    + split; [split; [by intros _ e' [= <-] | by eexists]|].
      intros md [= <-]. simpl. split; intros [? ?]; done.
    + split; [|done]. split; [by intros [? ?]|].
      intros Hall. rewrite (Hall e eq_refl) in He. done.
Qed.

Lemma scan_files_outcome target pats root files env cur :
  scan_outcome target env (kept_in_dir pats root files) cur
    (scan_files target pats root files cur).
Proof.
  revert cur. induction files as [|f files IH]; intros cur.
  - apply scan_outcome_ret.
  - rewrite kept_in_dir_cons. simpl.
    destruct (should_exclude (path_join root f) pats); [apply IH|].
    set (full := path_join root f). set (rel := path_relpath (cwd env) full target).
    destruct (compute_sha256_traced full env) as (rc & Hc & Hcok).
    destruct (get_file_metadata_traced full env) as (rm & Hm & Hmok & Hmd).
    destruct rc as [h|e].
    2:{ exists (Raise e), [EvOpen full]. split; [|split; [|done]].
        - intros w. unfold relpath. rewrite !bind_run. simpl. by rewrite bind_run, Hc.
        - split; [by intros [? ?]|]. intros [[Hread _] _]%Forall_cons.
          apply Hcok in Hread. by destruct Hread. }
    assert (∀ e, read_failure (file_at env full) = Some e → handled_by_compute_sha256 e)
      as Hread by (apply Hcok; by eexists).
    destruct rm as [md|e].
    2:{ exists (Raise e), [EvOpen full; EvStat full]. split; [|split; [|done]].
        - intros w. unfold relpath. rewrite !bind_run. simpl.
          by rewrite bind_run, Hc, bind_run, Hm, add_trace_app.
        - split; [by intros [? ?]|]. intros [[_ Hstat] _]%Forall_cons.
          apply Hmok in Hstat. by destruct Hstat. }
    assert (∀ e, stat_at env full = Raise e → is_Exception e = true)
      as Hstat by (apply Hmok; by eexists).
    set (rec := {| rec_hash := Some h; rec_size := md_size md;
                   rec_mtime := md_mtime md |}).
    destruct (IH (<[rel := rec]> cur)) as (r & evs & Hrun & Hiff & Hok).
    exists r, ([EvOpen full; EvStat full] ++ evs). split; [|split].
    + intros w. unfold relpath. rewrite !bind_run. simpl.
      by rewrite bind_run, Hc, bind_run, Hm, Hrun, !add_trace_app.
    + rewrite Forall_cons, <- Hiff. split; [|tauto].
      intros Hr. split; [by split | done].
    + intros cur' Hr. destruct (Hok cur' Hr) as (Ho & Hd & Hv).
      split; [by rewrite opened_app, Ho|]. split.
      * rewrite Hd, dom_insert_L, fmap_cons, list_to_set_cons. fold rel.
        rewrite (comm_L (∪) {[rel]} (dom cur)). by rewrite (assoc_L (∪)).
      * intros key rec' Hkey. destruct (Hv key rec' Hkey) as [Hold|?]; [|by right].
        destruct (decide (key = rel)) as [->|Hne].
        -- rewrite lookup_insert_eq in Hold. injection Hold as <-. right.
           split; [by eexists|]. by apply Hmd.
        -- rewrite lookup_insert_ne in Hold by done. by left.
Qed.

Lemma elem_of_prune_dirs_iff pats root dirs d :
  d ∈ prune_dirs pats root dirs
  ↔ d ∈ dirs ∧ should_exclude (path_join root d) pats = false.
Proof.
  unfold prune_dirs. rewrite !list_elem_of_In, filter_In, negb_true_iff. done.
Qed.

(** Entering the directories the loop body kept is entering the
    directories no pattern excludes. *)
Lemma descend_outcome target pats top dirs env entries :
  (∀ e, e ∈ entries → is_dir e.2 = true → e.1 ∈ dirs) →
  Forall (λ e, ∀ top cur,
            scan_outcome target env (kept_files pats top e.2) cur
              (os_walk (scan_visit target pats) top e.2 cur)) entries →
  ∀ cur,
    scan_outcome target env (kept_below (kept_files pats) pats top entries) cur
      (descend (os_walk (scan_visit target pats)) top (prune_dirs pats top dirs)
         entries cur).
Proof.
  intros Hdirs IH. induction IH as [|e entries He _ IHes]; intros cur.
  - apply scan_outcome_ret.
  - assert (∀ e', e' ∈ entries → is_dir e'.2 = true → e'.1 ∈ dirs) as Hrest
      by (intros e' He'; apply Hdirs; by right).
    simpl.
    destruct (is_dir e.2) eqn:Hd; simpl; [|by apply IHes].
    destruct (should_exclude (path_join top e.1) pats) eqn:Hex; simpl.
    + rewrite bool_decide_false; [by apply IHes|].
      intros Hin%elem_of_prune_dirs_iff. destruct Hin as [_ Hin]. congruence.
    + rewrite bool_decide_true.
      * apply scan_outcome_seq; [apply He | by apply IHes].
      * apply elem_of_prune_dirs_iff. split; [|done]. apply Hdirs; [left | done].
Qed.

Lemma elem_of_dir_names (entries : list (string * node)) e :
  e ∈ entries → is_dir e.2 = true →
  e.1 ∈ (List.filter (λ e, is_dir e.2) entries).*1.
Proof.
  intros He Hd. apply list_elem_of_fmap. exists e. split; [done|].
  apply list_elem_of_In, filter_In. split; [by apply list_elem_of_In | done].
Qed.

(** The outcome of the walk of a scan. *)
Lemma os_walk_outcome target pats env n :
  ∀ top cur,
    scan_outcome target env (kept_files pats top n) cur
      (os_walk (scan_visit target pats) top n cur).
Proof.
  induction n as [| | entries IH] using node_ind'; intros top cur.
  - apply scan_outcome_scandir, scan_outcome_ret.
  - apply scan_outcome_scandir, scan_outcome_ret.
  - change (os_walk (scan_visit target pats) top (Dir entries) cur)
      with (_ ← emit (EvScandir top);
            r ← scan_visit target pats top
                  (List.filter (λ e, is_dir e.2) entries).*1
                  (List.filter (λ e, negb (is_dir e.2)) entries).*1 cur;
            descend (os_walk (scan_visit target pats)) top r.1 entries r.2).
    apply scan_outcome_scandir. simpl.
    eapply scan_outcome_ext;
      [|apply (scan_outcome_seq target env _ _ cur
                 (scan_files target pats top
                    (List.filter (λ e, negb (is_dir e.2)) entries).*1 cur)
                 (λ cur1, descend (os_walk (scan_visit target pats)) top
                            (prune_dirs pats top
                               (List.filter (λ e, is_dir e.2) entries).*1)
                            entries cur1))].
    + intros w. unfold scan_visit. rewrite bind_assoc_run, !bind_run.
      by destruct (scan_files _ _ _ _ _ _ _) as [[cur1|e] w1].
    + apply scan_files_outcome.
    + intros cur1. apply descend_outcome; [apply elem_of_dir_names | exact IH].
Qed.

(** The outcome of a scan. *)
Lemma scan_current_state_outcome target pats env :
  let top := path_normpath (path_abspath (cwd env) target) in
  scan_outcome top env (kept_files pats top (tree_at env top)) ∅
    (scan_current_state target pats).
Proof.
  intros top. eapply scan_outcome_ext; [|apply (os_walk_outcome top pats env)].
  intros w. by rewrite scan_current_state_walk.
Qed.

End scan_more.

(** ** Unreadable files *)

Section read_failures.
Context `{Platform}.

(** C4, as the code has it: [compute_sha256] turns [PermissionError] and
    [FileNotFoundError], met at [open] or at a read, into the sentinel
    [<ERROR:name>] and does not raise; a readable file gets the digest of
    its bytes.  A scan in which no file fails otherwise returns: no
    unreadable file of that kind aborts it.  Any other exception met at
    [open] or at a read leaves [compute_sha256] as it is, and a scan that
    has such a file among those it reads raises instead of returning. *)
Theorem compute_sha256_sentinel_for_named_errors env :
  (∀ path w,
     (∀ e, read_failure (file_at env path) = Some e → handled_by_compute_sha256 e) →
     compute_sha256 path env w
     = (Ok match read_failure (file_at env path) with
           | Some e => sentinel e
           | None => sha256_hexdigest (io_data (file_at env path))
           end, add_trace w [EvOpen path]))
  ∧ (failures_handled env →
     ∀ target pats w, ∃ cur w', scan_current_state target pats env w = (Ok cur, w'))
  ∧ (∀ path w e,
       read_failure (file_at env path) = Some e →
       ¬ handled_by_compute_sha256 e →
       compute_sha256 path env w = (Raise e, add_trace w [EvOpen path]))
  ∧ (∀ target pats w full e,
       let top := path_normpath (path_abspath (cwd env) target) in
       full ∈ kept_files pats top (tree_at env top) →
       read_failure (file_at env full) = Some e →
       ¬ handled_by_compute_sha256 e →
       ∃ e' w', scan_current_state target pats env w = (Raise e', w')).
Proof.
  split; [|split; [|split]].
  - intros path w. apply compute_sha256_total.
  - intros Hh target pats w. by apply scan_current_state_total.
  - intros path w e Hfail Hnot. rewrite compute_sha256_run, Hfail.
    destruct (decide (e = PermissionError)) as [->|Hp]; [by destruct Hnot; left|].
    destruct (decide (e = FileNotFoundError)) as [->|Hf]; [by destruct Hnot; right|].
    by rewrite !bool_decide_false.
  - intros target pats w full e top Hkept Hfail Hnot.
    destruct (scan_current_state_outcome target pats env) as (r & evs & Hrun & Hiff & _).
    rewrite Hrun. destruct r as [cur|e']; [|by eexists _, _].
    exfalso. apply Hnot.
    assert (Forall (file_ok env) (kept_files pats top (tree_at env top))) as Hall
      by (apply Hiff; by exists cur).
    rewrite Forall_forall in Hall. by apply (Hall full Hkept).
Qed.

End read_failures.

(** ** Reporting: what is logged *)

Section report_more.
Context `{Platform}.

Lemma log_added_lines l changes env w :
  log_added l changes env w
  = (Ok (changes + Z.of_nat (length l))%Z,
     add_log w ((λ a, (INFO, "ADDED: " +:+ a_path a +:+ " | hash="
                               +:+ fmt_opt (rec_hash (a_current a)))) <$> l)).
Proof.
  revert changes w. induction l as [|a l IH]; intros changes w; simpl.
  - by rewrite add_log_nil, Z.add_0_r.
  - rewrite bind_run, logger_log_run, IH, add_log_app. do 2 f_equal. lia.
Qed.

Lemma log_deleted_lines l changes env w :
  log_deleted l changes env w
  = (Ok (changes + Z.of_nat (length l))%Z,
     add_log w ((λ d, (INFO, "DELETED: " +:+ d_path d +:+ " | old_hash="
                               +:+ fmt_opt (rec_hash (d_baseline d)))) <$> l)).
Proof.
  revert changes w. induction l as [|d l IH]; intros changes w; simpl.
  - by rewrite add_log_nil, Z.add_0_r.
  - rewrite bind_run, logger_log_run, IH, add_log_app. do 2 f_equal. lia.
Qed.

Lemma log_modified_lines l changes env w :
  log_modified l changes env w
  = (Ok (changes + Z.of_nat (length l))%Z,
     add_log w ((λ m, (INFO, "MODIFIED: " +:+ m_path m +:+ " | old_hash="
                               +:+ fmt_opt (rec_hash (m_baseline m)) +:+ " | new_hash="
                               +:+ fmt_opt (rec_hash (m_current m)))) <$> l)).
Proof.
  revert changes w. induction l as [|m l IH]; intros changes w; simpl.
  - by rewrite add_log_nil, Z.add_0_r.
  - rewrite bind_run, logger_log_run, IH, add_log_app. do 2 f_equal. lia.
Qed.

(** What [print_and_log_diffs] returns and writes, in closed form. *)
Lemma print_and_log_diffs_lines diffs env w :
  print_and_log_diffs diffs env w
  = (Ok (Z.of_nat (diff_size diffs)), add_log w (report_lines diffs)).
Proof.
  unfold print_and_log_diffs, report_lines, diff_size.
  destruct diffs as [la ld lm]. simpl.
  assert ((match la with
           | [] => mret 0%Z
           | _ => _ ← logger_log INFO "=== Added Files ==="; log_added la 0%Z
           end) env w
          = (Ok (Z.of_nat (length la)), add_log w (added_lines la))) as Ha.
  { destruct la as [|a la]; [by rewrite add_log_nil|].
    by rewrite bind_run, logger_log_run, log_added_lines, add_log_app. }
  rewrite bind_run, Ha. clear Ha.
  assert (∀ c w, (match ld with
                  | [] => mret c
                  | _ => _ ← logger_log INFO "=== Deleted Files ==="; log_deleted ld c
                  end) env w
                 = (Ok (c + Z.of_nat (length ld))%Z, add_log w (deleted_lines ld))) as Hd.
  { intros c w'. destruct ld as [|d ld]; [by rewrite add_log_nil, Z.add_0_r|].
    by rewrite bind_run, logger_log_run, log_deleted_lines, add_log_app. }
  rewrite bind_run, Hd. clear Hd.
  assert (∀ c w, (match lm with
                  | [] => mret c
                  | _ => _ ← logger_log INFO "=== Modified Files ==="; log_modified lm c
                  end) env w
                 = (Ok (c + Z.of_nat (length lm))%Z, add_log w (modified_lines lm))) as Hm.
  { intros c w'. destruct lm as [|m lm]; [by rewrite add_log_nil, Z.add_0_r|].
    by rewrite bind_run, logger_log_run, log_modified_lines, add_log_app. }
  rewrite bind_run, Hm. clear Hm. rewrite bind_run, !add_log_app.
  replace (Z.of_nat (length la) + Z.of_nat (length ld) + Z.of_nat (length lm))%Z
    with (Z.of_nat (length la + length ld + length lm)) by lia.
  destruct (length la + length ld + length lm) as [|n] eqn:Hn; simpl.
  - unfold add_log. simpl. by rewrite <- !app_assoc.
  - by rewrite app_nil_r.
Qed.

(** X7: [print_and_log_diffs] returns the number of entries of the diff and
    does not raise.  It changes nothing but the log, to which it appends
    each non-empty list under its heading, one line per entry in the order
    of the list, or the single line that nothing changed. *)
Theorem print_and_log_diffs_reports_every_entry diffs env w :
  print_and_log_diffs diffs env w
  = (Ok (Z.of_nat (length (added diffs) + length (deleted diffs)
                   + length (modified diffs))),
     add_log w (report_lines diffs))
  ∧ length (report_lines diffs)
    = match diff_size diffs with
      | 0 => 1
      | S _ =>
          diff_size diffs
          + (if added diffs is [] then 0 else 1)
          + (if deleted diffs is [] then 0 else 1)
          + (if modified diffs is [] then 0 else 1)
      end.
Proof.
  split; [apply print_and_log_diffs_lines|].
  unfold report_lines, diff_size, added_lines, deleted_lines, modified_lines.
  destruct (added diffs) as [|a la], (deleted diffs) as [|d ld],
    (modified diffs) as [|m lm]; simpl;
    rewrite ?length_app, ?length_fmap; simpl;
    rewrite ?length_app, ?length_fmap; simpl; try lia.
  all: rewrite ?length_app, ?length_fmap; simpl; lia.
Qed.

End report_more.

(** ** PathScanner: further properties *)

Section scan_extras.
Context `{Platform}.

(** The mapping a scan returns depends on the environment, not on the
    world it starts in. *)
Lemma scan_result_any_world target pats env w1 w2 :
  (scan_current_state target pats env w1).1 = (scan_current_state target pats env w2).1.
Proof.
  destruct (scan_current_state_outcome target pats env) as (r & evs & Hrun & _ & _).
  by rewrite !Hrun.
Qed.

(** X10: a scan that returns has opened exactly the files that lie in no
    excluded directory and are not excluded themselves, each once, in the
    order of the walk, and the paths of its snapshot are exactly their
    paths relative to the root: no kept file is skipped. *)
Theorem scan_reads_exactly_the_kept_files target pats env w cur w' :
  let top := path_normpath (path_abspath (cwd env) target) in
  scan_current_state target pats env w = (Ok cur, w') →
  ∃ evs, w' = add_trace w evs
    ∧ opened evs = kept_files pats top (tree_at env top)
    ∧ dom cur = list_to_set ((λ full, path_relpath (cwd env) full top)
                             <$> kept_files pats top (tree_at env top)).
Proof.
  intros top Hscan.
  destruct (scan_current_state_outcome target pats env) as (r & evs & Hrun & _ & Hok).
  rewrite Hrun in Hscan. injection Hscan as -> <-.
  destruct (Hok cur eq_refl) as (Ho & Hd & _). exists evs.
  split; [done|]. split; [done|]. rewrite Hd, dom_empty_L. by rewrite (left_id_L ∅ (∪)).
Qed.

(** X11: every record of a snapshot that a scan returns has a hash, and has a
    size exactly when it has a modification time. *)
Theorem scan_records_are_well_formed target pats env w cur w' :
  scan_current_state target pats env w = (Ok cur, w') →
  ∀ k rec, cur !! k = Some rec →
    is_Some (rec_hash rec) ∧ (is_Some (rec_size rec) ↔ is_Some (rec_mtime rec)).
Proof.
  intros Hscan k rec Hk.
  destruct (scan_current_state_outcome target pats env) as (r & evs & Hrun & _ & Hok).
  rewrite Hrun in Hscan. injection Hscan as -> _.
  destruct (Hok cur eq_refl) as (_ & _ & Hv).
  destruct (Hv k rec Hk) as [Hempty|Hwf]; [|exact Hwf].
  by rewrite lookup_empty in Hempty.
Qed.

(** X12: a scan, whether it returns or raises, writes no document and no log
    record: it only adds file-system events to the trace. *)
Theorem scan_is_read_only target pats env w :
  store (scan_current_state target pats env w).2 = store w
  ∧ log (scan_current_state target pats env w).2 = log w
  ∧ ∃ evs, trace (scan_current_state target pats env w).2 = trace w ++ evs.
Proof.
  destruct (scan_current_state_outcome target pats env) as (r & evs & Hrun & _ & _).
  rewrite Hrun. simpl. eauto.
Qed.

(** X13: a scan returns exactly when no kept file stops it: each one can be
    read, or fails with [PermissionError] or [FileNotFoundError], and
    [os.stat] on it does not raise outside [Exception].  Files that are
    excluded, or lie in an excluded directory, cannot abort a scan. *)
Theorem scan_returns_iff_kept_files_are_ok target pats env w :
  let top := path_normpath (path_abspath (cwd env) target) in
  (∃ cur w', scan_current_state target pats env w = (Ok cur, w'))
  ↔ Forall (file_ok env) (kept_files pats top (tree_at env top)).
Proof.
  intros top.
  destruct (scan_current_state_outcome target pats env) as (r & evs & Hrun & Hiff & _).
  fold top in Hiff. rewrite <- Hiff, Hrun. split.
  - intros (cur & w' & [= -> _]). by eexists.
  - intros [cur ->]. by eexists _, _.
Qed.

(** X14: a baseline entry that has no hash is reported as modified as soon as
    a scan finds a file at its path: the hash of a scanned record is never
    missing, and a missing hash differs from any hash. *)
Theorem hashless_baseline_entry_is_modified target pats env w cur w' m B k rb rc :
  scan_current_state target pats env w = (Ok cur, w') →
  B !! k = Some rb → rec_hash rb = None → cur !! k = Some rc →
  ∃ d, compare_baseline_and_current (Some (document m B)) cur = Ok d
    ∧ {| m_path := k; m_baseline := rb; m_current := rc |} ∈ modified d.
Proof.
  intros Hscan HB Hnone Hcur.
  destruct (scan_current_state_outcome target pats env) as (r & evs & Hrun & _ & Hok).
  rewrite Hrun in Hscan. injection Hscan as -> _.
  destruct (Hok cur eq_refl) as (_ & _ & Hv).
  destruct (Hv k rc Hcur) as [Hempty|[[h Hh] _]]; [by rewrite lookup_empty in Hempty|].
  exists (diff_of B cur). rewrite compare_document. split; [done|].
  apply elem_of_modified. split; [done|]. split; [done|]. by rewrite Hnone, Hh.
Qed.

(** X15: a target that cannot be listed (it does not exist, is not a
    directory, or cannot be read) makes a scan return the empty mapping,
    not raise; compared with a baseline, every baselined file is then
    reported deleted and nothing else is reported. *)
Theorem unlistable_target_scans_empty target pats env w m B :
  let top := path_normpath (path_abspath (cwd env) target) in
  (∀ entries, tree_at env top ≠ Dir entries) →
  scan_current_state target pats env w = (Ok ∅, add_trace w [EvScandir top])
  ∧ ∃ d, compare_baseline_and_current (Some (document m B)) ∅ = Ok d
      ∧ added d = [] ∧ modified d = []
      ∧ ∀ k r, {| d_path := k; d_baseline := r |} ∈ deleted d ↔ B !! k = Some r.
Proof.
  intros top Hnot. split.
  - rewrite scan_current_state_walk. simpl. fold top.
    destruct (tree_at env top) as [| entries |]; [done | by destruct (Hnot entries) | done].
  - exists (diff_of B ∅). rewrite compare_document. split; [done|].
    unfold diff_of. simpl. rewrite dom_empty_L.
    rewrite empty_difference_L, intersection_empty_r_L, elements_empty.
    split; [done|]. split; [done|].
    intros k r. pose proof (elem_of_deleted B ∅ k r) as Hd.
    unfold diff_of in Hd. simpl in Hd. rewrite dom_empty_L in Hd.
    rewrite Hd, lookup_empty. tauto.
Qed.

(** X9: [should_exclude] answers yes exactly when some pattern of the list
    matches the path or its base name; the order of the patterns and their
    repetition do not matter. *)
Theorem should_exclude_some_pattern_matches path pats :
  (should_exclude path pats = true
   ↔ ∃ pat, pat ∈ pats
            ∧ (fnmatch path pat = true ∨ fnmatch (path_basename path) pat = true))
  ∧ ∀ pats', (∀ pat, pat ∈ pats ↔ pat ∈ pats') →
             should_exclude path pats' = should_exclude path pats.
Proof.
  assert (∀ ps, should_exclude path ps = true
                ↔ ∃ pat, pat ∈ ps
                         ∧ (fnmatch path pat = true
                            ∨ fnmatch (path_basename path) pat = true)) as Hchar.
  { induction ps as [|pat ps IH]; simpl.
    - split; [done|]. intros (pat & Hpat & _). by apply elem_of_nil in Hpat.
    - destruct (fnmatch path pat) eqn:Hp; simpl.
      { split; [|done]. intros _. exists pat. split; [left | by left]. }
      destruct (fnmatch (path_basename path) pat) eqn:Hb; simpl.
      { split; [|done]. intros _. exists pat. split; [left | by right]. }
      rewrite IH. split.
      + intros (pat' & Hpat' & Hm). exists pat'. split; [by right | done].
      + intros (pat' & Hpat' & Hm). apply elem_of_cons in Hpat'.
        destruct Hpat' as [->|Hpat']; [|by exists pat'].
        destruct Hm; congruence. }
  split; [apply Hchar|].
  intros pats' Hsame.
  destruct (should_exclude path pats) eqn:Hex.
  - apply Hchar. apply Hchar in Hex. destruct Hex as (pat & Hpat & Hm).
    exists pat. split; [by apply Hsame | done].
  - destruct (should_exclude path pats') eqn:Hex'; [|done].
    apply Hchar in Hex'. destruct Hex' as (pat & Hpat & Hm).
    assert (should_exclude path pats = true) as Hyes; [|congruence].
    apply Hchar. exists pat. split; [by apply Hsame | done].
Qed.

(** X8: the hash object is fed all the bytes of a readable file, in order,
    whatever the size of the chunks, so the digest [compute_sha256]
    returns is that of the content: two readable files with the same bytes
    get the same digest, whatever their paths. *)
Theorem digest_is_of_the_content path env w :
  io_open (file_at env path) = None →
  io_fault (file_at env path) = None →
  (∀ n, read_loop n None (io_data (file_at env path)) []
        = Ok (io_data (file_at env path)))
  ∧ (compute_sha256 path env w).1 = Ok (sha256_hexdigest (io_data (file_at env path)))
  ∧ ∀ path' env' w',
      io_open (file_at env' path') = None →
      io_fault (file_at env' path') = None →
      io_data (file_at env' path') = io_data (file_at env path) →
      (compute_sha256 path' env' w').1 = (compute_sha256 path env w).1.
Proof.
  intros Hopen Hfault.
  assert (∀ p e w0, io_open (file_at e p) = None → io_fault (file_at e p) = None →
            (compute_sha256 p e w0).1 = Ok (sha256_hexdigest (io_data (file_at e p))))
    as Hdigest.
  { intros p e w0 Ho Hf. rewrite compute_sha256_run. unfold read_failure.
    by rewrite Ho, Hf. }
  split; [intros n; by rewrite read_loop_all|].
  split; [by apply Hdigest|].
  intros path' env' w' Ho Hf Hdata. rewrite !Hdigest by done. by rewrite Hdata.
Qed.

End scan_extras.

(** ** BaselineStore, ScanOnce and MonitorLoop: further properties *)

Section operations.
Context `{Platform}.

Lemma diff_of_diag (S : gmap string FileRecord) :
  diff_of S S = {| added := []; deleted := []; modified := [] |}.
Proof.
  unfold diff_of. rewrite difference_diag_L, elements_empty. simpl. f_equal.
  apply omap_None_on. intros k _. unfold modified_entry.
  destruct (S !! k) as [r|]; simpl; [|done].
  rewrite bool_decide_false; [done|]. by intros Hne.
Qed.

Lemma time_sleep_run interval env w :
  time_sleep interval env w
  = (if ((interval <? - sleep_max) || (sleep_max <? interval))%Z then Raise OverflowError
     else if (interval <? 0)%Z then Raise ValueError
     else if sleep_interrupted env then Raise KeyboardInterrupt
     else Ok (), w).
Proof.
  unfold time_sleep. destruct (_ || _); [done|]. destruct (interval <? 0)%Z; [done|].
  rewrite bind_run. simpl. by destruct (sleep_interrupted env).
Qed.

(** The sleep of an interval [time.sleep] accepts returns, unless it is
    interrupted. *)
Lemma time_sleep_accepted interval env w :
  sleep_accepts interval →
  time_sleep interval env w
  = (if sleep_interrupted env then Raise KeyboardInterrupt else Ok (), w).
Proof.
  intros [Hlo Hhi]. rewrite time_sleep_run.
  assert ((interval <? - sleep_max)%Z = false) as -> by (apply Z.ltb_ge; lia).
  assert ((sleep_max <? interval)%Z = false) as -> by (apply Z.ltb_ge; lia).
  assert ((interval <? 0)%Z = false) as -> by (apply Z.ltb_ge; lia).
  done.
Qed.

(** [build_baseline], step by step. *)
Lemma build_baseline_run target baseline_file pats env w :
  build_baseline target baseline_file pats env w
  = match scan_current_state target pats env w with
    | (Ok cur, w1) =>
        match write_fault env with
        | None =>
            (Ok (updated_baseline target env cur),
             set_store w1 (<[baseline_file := Holds (updated_baseline target env cur)]>
                             (store w1)))
        | Some (AtOpen, e) => (Raise e, w1)
        | Some (DuringDump, e) =>
            (Raise e, set_store w1 (<[baseline_file := Truncated]> (store w1)))
        end
    | (Raise e, w1) => (Raise e, w1)
    end.
Proof.
  rewrite build_baseline_scan, bind_run.
  destruct (scan_current_state target pats env w) as [[cur|e] w1]; [|done].
  rewrite bind_run. simpl. rewrite bind_run, write_json_run.
  fold (updated_baseline target env cur).
  by destruct (write_fault env) as [[[] e]|].
Qed.

(** [monitor_detect], step by step. *)
Lemma monitor_detect_run target pats baseline env w :
  monitor_detect target pats baseline env w
  = match scan_current_state target pats env w with
    | (Ok cur, w1) =>
        let d := diff_of (base_files_of (Some baseline)) cur in
        (Ok (cur, Z.of_nat (diff_size d)), add_log w1 (report_lines d))
    | (Raise e, w1) => (Raise e, w1)
    end.
Proof.
  unfold monitor_detect. rewrite bind_run.
  destruct (scan_current_state target pats env w) as [[cur|e] w1]; [|done].
  rewrite bind_run, compare_diff_of. unfold lift_res.
  by rewrite bind_run, print_and_log_diffs_lines.
Qed.

(** The beginning of [monitor_loop], up to the loop. *)
Lemma monitor_loop_run target baseline_file interval log_file update pats env turns w :
  monitor_loop target baseline_file interval log_file update pats env turns w
  = match (setup_logger log_file env w).1 with
    | Raise e => (Uncaught e None, w)
    | Ok _ =>
        let w1 := add_log w [monitoring_line target interval] in
        match store w !! baseline_file with
        | None =>
            (Returned, add_log w1 [(ERROR, "Baseline not found. Run baseline first.")])
        | Some Truncated => (Uncaught JSONDecodeError None, w1)
        | Some (Holds b) => monitor_while target baseline_file interval update pats b turns w1
        end
    end.
Proof.
  unfold monitor_loop. rewrite bind_run, setup_logger_run.
  destruct (match log_file with Some _ => _ | None => _ end) as [[]|e]; [|done].
  cbn [fst]. rewrite bind_run, logger_log_run, bind_run, load_baseline_run.
  fold (monitoring_line target interval). cbn [store add_log].
  destruct (store w !! baseline_file) as [[b|]|]; [done|done|].
  by rewrite bind_run, logger_log_run.
Qed.

(** [run_scan_once], step by step. *)
Lemma run_scan_once_run target baseline_file log_file pats env w :
  run_scan_once target baseline_file log_file pats env w
  = match (setup_logger log_file env w).1 with
    | Raise e => (Raise e, w)
    | Ok _ =>
        match store w !! baseline_file with
        | None => (Ok 2%Z, add_log w [(ERROR, "Baseline not found. Run baseline first.")])
        | Some Truncated => (Raise JSONDecodeError, w)
        | Some (Holds b) =>
            match scan_current_state target pats env w with
            | (Ok cur, w1) =>
                let d := diff_of (base_files_of (Some b)) cur in
                (Ok (if (Z.of_nat (diff_size d) =? 0)%Z then 0%Z else 1%Z),
                 add_log w1 (report_lines d))
            | (Raise e, w1) => (Raise e, w1)
            end
        end
    end.
Proof.
  unfold run_scan_once. rewrite bind_run, setup_logger_run.
  destruct (match log_file with Some _ => _ | None => _ end) as [[]|e]; [|done].
  cbn [fst]. rewrite bind_run, load_baseline_run.
  destruct (store w !! baseline_file) as [[b|]|]; [|done|].
  - rewrite bind_run.
    destruct (scan_current_state target pats env w) as [[cur|e] w1]; [|done].
    rewrite bind_run, compare_diff_of. unfold lift_res.
    by rewrite bind_run, print_and_log_diffs_lines.
  - by rewrite bind_run, logger_log_run.
Qed.

(** One turn of the monitor, step by step. *)
Lemma monitor_cycle_run target baseline_file interval update pats baseline env w :
  monitor_cycle target baseline_file interval update pats baseline env w
  = match monitor_detect target pats baseline env w with
    | (Raise e, w1) => (baseline, (Raise e, w1))
    | (Ok (cur, changes), w1) =>
        if (0 <? changes)%Z && update
        then (updated_baseline target env cur,
              (_ ← monitor_persist baseline_file (updated_baseline target env cur);
               time_sleep interval) env w1)
        else (baseline, time_sleep interval env w1)
    end.
Proof.
  unfold monitor_cycle.
  destruct (monitor_detect target pats baseline env w) as [[[cur changes]|e] w1]; [|done].
  by destruct ((0 <? changes)%Z && update).
Qed.

(** X16: saving then loading gives the document back: after [build_baseline]
    has returned a document, [load_baseline] on the same file returns that
    document, which records the normalised root, the time of the call with
    a [Z] appended, and the scanned mapping. *)
Theorem baseline_round_trip target baseline_file pats env w b w' :
  build_baseline target baseline_file pats env w = (Ok b, w') →
  (∀ env', load_baseline baseline_file env' w' = (Ok (Some b), w'))
  ∧ ∃ cur, (scan_current_state target pats env w).1 = Ok cur
      ∧ b = {| meta := Some {| generated_at := utcnow_isoformat env +:+ "Z";
                               root := path_normpath (path_abspath (cwd env) target) |};
               files := Some cur |}.
Proof.
  rewrite build_baseline_run.
  destruct (scan_current_state target pats env w) as [[cur|e] w1]; [|done].
  destruct (write_fault env) as [[[] e]|]; [done | done |].
  intros [= <- <-]. split.
  - intros env'. rewrite load_baseline_run. simpl. by rewrite lookup_insert_eq.
  - by exists cur.
Qed.

(** X17: a scan that raises while the baseline is being built leaves the
    stored baseline alone: [build_baseline] raises the same exception
    without having opened the baseline file. *)
Theorem failed_scan_keeps_stored_baseline target baseline_file pats env w e w1 :
  scan_current_state target pats env w = (Raise e, w1) →
  build_baseline target baseline_file pats env w = (Raise e, w1)
  ∧ store w1 = store w.
Proof.
  intros Hscan. split.
  - by rewrite build_baseline_run, Hscan.
  - destruct (scan_current_state_outcome target pats env) as (r & evs & Hrun & _ & _).
    rewrite Hrun in Hscan. by injection Hscan as _ <-.
Qed.


(** X19: [run_scan_once] never writes a document: whatever it returns or
    raises, the store is as it was. *)
Theorem run_scan_once_writes_no_document target baseline_file log_file pats env w :
  store (run_scan_once target baseline_file log_file pats env w).2 = store w.
Proof.
  rewrite run_scan_once_run. destruct (setup_logger log_file env w).1; [|done].
  destruct (store w !! baseline_file) as [[b|]|]; [|done|done].
  destruct (scan_current_state_outcome target pats env) as (r & evs & Hrun & _ & _).
  rewrite Hrun. by destruct r.
Qed.

(** X20: a baseline file that holds only the beginning of a document is not a
    missing baseline: once the logger is set up, which takes that the log
    file, if one is given, can be opened, [run_scan_once] does not return 2
    but raises [JSONDecodeError], and so does [monitor_loop] after its
    first log record; neither scans. *)
Theorem truncated_baseline_raises target baseline_file interval log_file update pats
    env turns w :
  log_file_opens env log_file →
  store w !! baseline_file = Some Truncated →
  run_scan_once target baseline_file log_file pats env w = (Raise JSONDecodeError, w)
  ∧ monitor_loop target baseline_file interval log_file update pats env turns w
    = (Uncaught JSONDecodeError None, add_log w [monitoring_line target interval]).
Proof.
  intros Hopens Hstore. split.
  - by rewrite run_scan_once_run, (setup_logger_opens _ _ _ Hopens), Hstore.
  - by rewrite monitor_loop_run, (setup_logger_opens _ _ _ Hopens), Hstore.
Qed.


(** X22: with auto-update off, the monitor never writes a document and never
    replaces the baseline it holds, however many turns it runs and however
    it ends. *)
Theorem monitor_without_update_keeps_baseline target baseline_file interval pats
    baseline turns w :
  store (monitor_while target baseline_file interval false pats baseline turns w).2
  = store w
  ∧ match (monitor_while target baseline_file interval false pats baseline turns w).1 with
    | Running b => b = baseline
    | Returned => True
    | Uncaught _ b => b = Some baseline
    end.
Proof.
  revert w. induction turns as [|env turns IH]; intros w; [done|].
  simpl. rewrite monitor_cycle_run.
  pose proof (monitor_detect_store target pats baseline env w) as Hstore.
  destruct (monitor_detect target pats baseline env w) as [[[cur changes]|e] w1];
    simpl in Hstore.
  - rewrite andb_false_r.
    pose proof (time_sleep_world interval env w1) as Hsleep.
    destruct (time_sleep interval env w1) as [[[]|e] w2]; simpl in Hsleep; subst w2.
    + destruct (IH w1) as [Hs Hb]. by rewrite Hs, Hstore.
    + destruct (bool_decide (e = KeyboardInterrupt)); simpl; by rewrite Hstore.
  - destruct (bool_decide (e = KeyboardInterrupt)); simpl; by rewrite Hstore.
Qed.

(** X23: an exception raised by the scan of a turn ends the monitor: anything
    but [KeyboardInterrupt] leaves [monitor_loop] uncaught and unlogged,
    [KeyboardInterrupt] makes it log that monitoring stopped and return.
    Either way no later turn runs, the baseline held is the one the turn
    started with, and no document is written. *)
Theorem scan_failure_ends_monitor target baseline_file interval update pats
    baseline env turns w e w1 :
  scan_current_state target pats env w = (Raise e, w1) →
  monitor_while target baseline_file interval update pats baseline (env :: turns) w
  = (if bool_decide (e = KeyboardInterrupt)
     then (Returned, add_log w1 [(INFO, "Monitoring stopped.")])
     else (Uncaught e (Some baseline), w1))
  ∧ store w1 = store w.
Proof.
  intros Hscan. split.
  - simpl. by rewrite monitor_cycle_run, monitor_detect_run, Hscan.
  - destruct (scan_current_state_outcome target pats env) as (r & evs & Hrun & _ & _).
    rewrite Hrun in Hscan. by injection Hscan as _ <-.
Qed.

(** X24: an interrupt during the sleep ends the loop in good order, the
    interval being one [time.sleep] accepts: the turn has done its work,
    [monitor_loop] logs that monitoring stopped and returns, and the turns
    that would have followed do not run. *)
Theorem interrupt_during_sleep_stops_monitor target baseline_file interval update pats
    baseline env turns w cur changes w1 :
  sleep_accepts interval →
  monitor_detect target pats baseline env w = (Ok (cur, changes), w1) →
  sleep_interrupted env = true →
  write_fault env = None →
  monitor_while target baseline_file interval update pats baseline (env :: turns) w
  = (Returned,
     add_log (if (0 <? changes)%Z && update
              then add_log
                     (set_store w1 (<[baseline_file :=
                                        Holds (updated_baseline target env cur)]>
                                      (store w1)))
                     [(INFO, "Baseline auto-updated after change.")]
              else w1)
       [(INFO, "Monitoring stopped.")]).
Proof.
  intros Hinterval Hdetect Hsleep Hwrite. simpl. rewrite monitor_cycle_run, Hdetect.
  destruct ((0 <? changes)%Z && update).
  - by rewrite bind_run, monitor_persist_run, Hwrite, time_sleep_accepted, Hsleep.
  - by rewrite time_sleep_accepted, Hsleep.
Qed.

(** X25: with auto-update on and an interval [time.sleep] accepts, a change
    is reported once.  After a turn that found changes and wrote the new
    baseline, a second turn in the same environment finds none: it logs
    that nothing changed, and the monitor goes on holding the document that
    the store holds. *)
Theorem change_is_reported_once target baseline_file interval pats baseline env w
    cur changes w1 :
  sleep_accepts interval →
  monitor_detect target pats baseline env w = (Ok (cur, changes), w1) →
  (0 < changes)%Z →
  write_fault env = None →
  sleep_interrupted env = false →
  ∃ w',
    monitor_while target baseline_file interval true pats baseline [env; env] w
    = (Running (updated_baseline target env cur), w')
    ∧ store w' !! baseline_file = Some (Holds (updated_baseline target env cur))
    ∧ last (log w') = Some (DEBUG, "No changes detected.").
Proof.
  intros Hinterval Hdetect Hchanges Hwrite Hsleep.
  destruct (scan_current_state_outcome target pats env) as (r & evs & Hrun & _ & _).
  assert (r = Ok cur) as ->.
  { rewrite monitor_detect_run, Hrun in Hdetect. destruct r; [|done].
    by injection Hdetect as -> _ _. }
  cbn [monitor_while]. rewrite monitor_cycle_run, Hdetect.
  apply Z.ltb_lt in Hchanges. rewrite Hchanges. simpl.
  rewrite bind_run, monitor_persist_run, Hwrite, time_sleep_accepted, Hsleep by done.
  rewrite monitor_cycle_run, monitor_detect_run, Hrun.
  assert (base_files_of (Some (updated_baseline target env cur)) = cur) as ->
    by apply base_files_of_files.
  rewrite diff_of_diag. cbn [diff_size report_lines added deleted modified length
    added_lines deleted_lines modified_lines Nat.add app Z.of_nat Z.ltb Z.compare
    andb].
  rewrite time_sleep_accepted, Hsleep by done. eexists. split; [done|]. split.
  - simpl. by rewrite lookup_insert_eq.
  - simpl. by rewrite last_snoc.
Qed.

(** X26: a log file that cannot be opened stops both operations before they
    begin: [run_scan_once] and [monitor_loop] leave with the exception
    [logging.FileHandler] raised, having logged, loaded, scanned and written
    nothing. *)
Theorem unopenable_log_file_raises target baseline_file interval path update pats
    env turns w e :
  path ≠ "" →
  log_fault env path = Some e →
  run_scan_once target baseline_file (Some path) pats env w = (Raise e, w)
  ∧ monitor_loop target baseline_file interval (Some path) update pats env turns w
    = (Uncaught e None, w).
Proof.
  intros Hpath Hfault. split.
  - by rewrite run_scan_once_run, (setup_logger_fails _ _ _ _ Hpath Hfault).
  - by rewrite monitor_loop_run, (setup_logger_fails _ _ _ _ Hpath Hfault).
Qed.

(** X27: an interval [time.sleep] does not accept ends the monitor after
    its first turn: the turn does its work, the auto-update included, then
    the sleep raises [ValueError] or [OverflowError], which leaves
    [monitor_loop] uncaught and unlogged; no later turn runs. *)
Theorem rejected_interval_ends_monitor target baseline_file interval update pats
    baseline env turns w cur changes w1 :
  ¬ sleep_accepts interval →
  monitor_detect target pats baseline env w = (Ok (cur, changes), w1) →
  write_fault env = None →
  ∃ e, (e = ValueError ∨ e = OverflowError)
    ∧ monitor_while target baseline_file interval update pats baseline (env :: turns) w
      = (Uncaught e (Some (if (0 <? changes)%Z && update
                           then updated_baseline target env cur
                           else baseline)),
         if (0 <? changes)%Z && update
         then add_log
                (set_store w1 (<[baseline_file :=
                                   Holds (updated_baseline target env cur)]>
                                 (store w1)))
                [(INFO, "Baseline auto-updated after change.")]
         else w1).
Proof.
  intros Hinterval Hdetect Hwrite.
  assert (∃ e, (e = ValueError ∨ e = OverflowError)
               ∧ ∀ w0, time_sleep interval env w0 = (Raise e, w0)) as (e & He & Hsleep).
  { destruct ((interval <? - sleep_max) || (sleep_max <? interval))%Z eqn:Hover.
    - exists OverflowError. split; [by right|]. intros w0. by rewrite time_sleep_run, Hover.
    - destruct (interval <? 0)%Z eqn:Hneg.
      + exists ValueError. split; [by left|]. intros w0.
        by rewrite time_sleep_run, Hover, Hneg.
      + destruct Hinterval. apply orb_false_elim in Hover as [_ Hhi].
        apply Z.ltb_ge in Hneg, Hhi. by split. }
  exists e. split; [done|]. simpl. rewrite monitor_cycle_run, Hdetect.
  assert (bool_decide (e = KeyboardInterrupt) = false) as Hki
    by (apply bool_decide_eq_false; by destruct He as [-> | ->]).
  destruct ((0 <? changes)%Z && update).
  - by rewrite bind_run, monitor_persist_run, Hwrite, Hsleep, Hki.
  - by rewrite Hsleep, Hki.
Qed.

End operations.

(** * Examples *)

Section examples.
Import Sample.
#[local] Existing Instance Posix.posix.

Example sha256_of_empty_file :
  sha256_hexdigest []
  = "e3b0c44298fc1c149afbf4c8996fb92427ae41e4649b934ca495991b7852b855".
Proof. vm_compute. reflexivity. Qed.

Example sha256_of_two_blocks :
  sha256_hexdigest (bytes_of "abcdbcdecdefdefgefghfghighijhijkijkljklmklmnlmnomnopnopq")
  = "248d6a61d20638b8e5c026930c3e6039a33ce45964ff2167f6ecedd419db06c1".
Proof. vm_compute. reflexivity. Qed.

Example scan_of_sample :
  (scan_current_state "data" ["cache"] env world).1
  = Ok (list_to_map
          [("a.txt",
            {| rec_hash :=
                 Some "8ed3f6ad685b959ead7022518e1af76cd816f8e8ec7ccdda1ed4018e8f2223f8";
               rec_size := Some 5%Z; rec_mtime := Some 1700000000.5%float |});
           ("docs/readme.md",
            {| rec_hash :=
                 Some "3f22095641508576e91dc7c6c7f7e08a093985d53ea998043c6619ad240dc92c";
               rec_size := Some 7%Z; rec_mtime := Some 1700000003%float |});
           ("secret.key",
            {| rec_hash := Some "<ERROR:PermissionError>";
               rec_size := Some 32%Z; rec_mtime := Some 1700000004%float |})]).
Proof. vm_compute. reflexivity. Qed.

(** Only the hash decides: a file whose size and modification time
    changed, its bytes being the same, is not reported. *)
Example touched_file_is_not_modified :
  let r := {| rec_hash := Some "8ed3"; rec_size := Some 5%Z;
              rec_mtime := Some 1700000000.5%float |} in
  let r' := {| rec_hash := Some "8ed3"; rec_size := Some 6%Z;
               rec_mtime := Some 1700000099%float |} in
  compare_baseline_and_current (Some (document None {["a.txt" := r]})) {["a.txt" := r']}
  = Ok {| added := []; deleted := []; modified := [] |}.
Proof. vm_compute. reflexivity. Qed.

(** A file moved is one path deleted and one path added. *)
Example renamed_file_is_deleted_and_added :
  let r := {| rec_hash := Some "8ed3"; rec_size := Some 5%Z;
              rec_mtime := Some 1700000000.5%float |} in
  compare_baseline_and_current (Some (document None {["a.txt" := r]})) {["b.txt" := r]}
  = Ok {| added := [{| a_path := "b.txt"; a_current := r |}];
          deleted := [{| d_path := "a.txt"; d_baseline := r |}];
          modified := [] |}.
Proof. vm_compute. reflexivity. Qed.

(** C7, as stated, fails: the patterns are tested on what the walk meets
    below the root, never on the root itself.  The directory scanned here
    has a base name that matches a pattern, and yet it is listed and the
    files below it are reported. *)
Example root_is_not_tested :
  path_normpath (path_abspath (cwd env) "data") = "/srv/data"
  ∧ fnmatch (path_basename "/srv/data") "data" = true
  ∧ should_exclude "/srv/data" ["data"; "cache"] = true
  ∧ (out_map dom (scan_current_state "data" ["data"; "cache"] env world)).1
    = Ok ({["a.txt"; "docs/readme.md"; "secret.key"]} : gset string).
Proof. repeat split; vm_compute; reflexivity. Qed.

Lemma lookup_path_Forall {A} (P : A → Prop) table default path :
  P default → Forall (λ e, P e.2) table → P (lookup_path table default path).
Proof.
  intros Hd Ht. unfold lookup_path.
  destruct (List.find _ table) as [e|] eqn:He; [|done].
  apply find_some in He. destruct He as [He _].
  rewrite Forall_forall in Ht. by apply Ht, list_elem_of_In.
Qed.

Lemma sample_failures_handled : failures_handled env.
Proof.
  split; intros path.
  - apply (lookup_path_Forall
             (λ io, ∀ e, read_failure io = Some e → handled_by_compute_sha256 e)).
    + intros e [= <-]. by right.
    + repeat first [apply Forall_nil_2 | apply Forall_cons_2];
        cbv [read_failure io_open io_fault readable unopenable snd];
        intros e [= <-]. by left.
  - apply (lookup_path_Forall (λ r, ∀ e, r = Raise e → is_Exception e = true)).
    + by intros e [= <-].
    + repeat first [apply Forall_nil_2 | apply Forall_cons_2]; by intros e.
Qed.

(** C4, as stated, fails: a read that fails with an input/output error
    makes [compute_sha256] raise, and the scan that meets the file aborts. *)
Lemma compute_sha256_raises_on_io_error :
  compute_sha256 "/srv/data/a.txt" env_io_error world
  = (Raise OSError, add_trace world [EvOpen "/srv/data/a.txt"])
  ∧ (scan_current_state "data" ["cache"] env_io_error world).1 = Raise OSError.
Proof. split; vm_compute; reflexivity. Qed.

Lemma compute_sha256_sentinel_for_named_errors_witness :
  compute_sha256 "/srv/data/secret.key" env world
  = (Ok "<ERROR:PermissionError>", add_trace world [EvOpen "/srv/data/secret.key"])
  ∧ (∃ cur w', scan_current_state "data" ["cache"] env world = (Ok cur, w'))
  ∧ compute_sha256 "/srv/data/a.txt" env_io_error world
    = (Raise OSError, add_trace world [EvOpen "/srv/data/a.txt"])
  ∧ ∃ e' w', scan_current_state "data" ["cache"] env_io_error world = (Raise e', w').
Proof.
  destruct (compute_sha256_sentinel_for_named_errors env) as (Hfile & Hscan & _).
  destruct (compute_sha256_sentinel_for_named_errors env_io_error)
    as (_ & _ & Hraise & Habort).
  split; [|split; [|split]].
  - apply (Hfile "/srv/data/secret.key" world). vm_compute. intros e [= <-]. by left.
  - apply Hscan, sample_failures_handled.
  - apply (Hraise "/srv/data/a.txt" world OSError);
      [vm_compute; reflexivity | intros [|]; discriminate].
  - apply (Habort "data" ["cache"] world "/srv/data/a.txt" OSError);
      [vm_compute; by left | vm_compute; reflexivity | intros [|]; discriminate].
Defined.


(** C6, as stated, fails: an interrupt after the baseline file was opened
    leaves a file that holds neither the old baseline, which a load returned
    before, nor the new one: the load raises. *)
Lemma interrupted_write_leaves_truncated_baseline :
  load_baseline "baseline.json" env world_with_baseline
  = (Ok (Some old_baseline), world_with_baseline)
  ∧ (build_baseline "data" "baseline.json" ["cache"] env_interrupted
       world_with_baseline).1 = Raise KeyboardInterrupt
  ∧ (load_baseline "baseline.json" env
       (build_baseline "data" "baseline.json" ["cache"] env_interrupted
          world_with_baseline).2).1 = Raise JSONDecodeError.
Proof. repeat split; vm_compute; reflexivity. Qed.

Lemma baseline_overwritten_in_place_witness :
  ∃ cur,
    overwritten_in_place "baseline.json" (updated_baseline "data" env_interrupted cur)
      env_interrupted (store world_with_baseline)
      (store (build_baseline "data" "baseline.json" ["cache"] env_interrupted
                world_with_baseline).2)
    ∧ overwritten_in_place "baseline.json" (updated_baseline "data" env_interrupted cur)
        env_interrupted (store world_with_baseline)
        (store (monitor_cycle "data" "baseline.json" 5 true ["cache"] old_baseline
                  env_interrupted world_with_baseline).2.2).
Proof.
  destruct (baseline_overwritten_in_place "data" "baseline.json" 5 ["cache"]
              env_interrupted world_with_baseline) as (Hbuild & Hmonitor & _).
  let r := eval vm_compute in
    (monitor_detect "data" ["cache"] old_baseline env_interrupted world_with_baseline) in
  match r with
  | (Ok (?cur, ?changes), ?w1) =>
      exists cur; split;
        [apply (Hbuild cur (add_trace world_with_baseline (trace w1)));
           vm_compute; reflexivity
        |apply (Hmonitor old_baseline cur changes w1); vm_compute; reflexivity]
  end.
Defined.

Lemma exclusion_prunes_and_filters_witness :
  scan_current_state "data" ["cache"] (with_tree env tree_other_cache) world
  = scan_current_state "data" ["cache"] env world
  ∧ ∃ evs, (scan_current_state "data" ["cache"] env world).2
           = add_trace world
               (EvScandir (path_normpath (path_abspath (cwd env) "data")) :: evs)
      ∧ Forall (permitted ["cache"] (path_normpath (path_abspath (cwd env) "data"))) evs
      ∧ ∀ cur, (scan_current_state "data" ["cache"] env world).1 = Ok cur →
          ∀ k rec, cur !! k = Some rec →
            ∃ full, k = path_relpath (cwd env) full
                          (path_normpath (path_abspath (cwd env) "data"))
                    ∧ unmatched ["cache"] full ∧ EvOpen full ∈ evs.
Proof.
  apply (exclusion_prunes_and_filters "data" ["cache"] env world tree_other_cache).
  vm_compute. tauto.
Defined.

(** C8, as stated, fails: the baseline file cannot be opened for writing
    during the first turn; the exception leaves [monitor_loop], the second
    turn, though its environment is there, never runs (the root was listed
    once), and the local [baseline] at that point is the new document, which
    knows [a.txt], not the old one, which does not. *)
Lemma failed_persistence_stops_monitor :
  ∃ new w',
    monitor_loop "data" "baseline.json" 5 None true ["cache"] env [env_denied; env]
      world_with_baseline = (Uncaught PermissionError (Some new), w')
    ∧ scans_of_root (trace w') = 1
    ∧ is_Some (base_files_of (Some new) !! "a.txt")
    ∧ base_files_of (Some old_baseline) !! "a.txt" = None.
Proof.
  let r := eval vm_compute in
    (monitor_loop "data" "baseline.json" 5 None true ["cache"] env [env_denied; env]
       world_with_baseline) in
  match r with
  | (Uncaught _ (Some ?new), ?w') => exists new, w'
  end.
  split; [vm_compute; reflexivity|]. split; [vm_compute; reflexivity|].
  split; [|vm_compute; reflexivity]. vm_compute. eauto.
Qed.

Lemma persistence_failure_ends_monitor_witness :
  ∃ cur w',
    monitor_while "data" "baseline.json" 5 true ["cache"] old_baseline
      [env_denied; env] world_with_baseline
    = (Uncaught PermissionError (Some (updated_baseline "data" env_denied cur)), w').
Proof.
  let r := eval vm_compute in
    (monitor_detect "data" ["cache"] old_baseline env_denied world_with_baseline) in
  match r with
  | (Ok (?cur, ?changes), ?w1) =>
      exists cur, w1;
      apply (persistence_failure_ends_monitor "data" "baseline.json" 5 ["cache"]
               old_baseline env_denied [env] world_with_baseline cur changes w1
               AtOpen PermissionError);
        [vm_compute; reflexivity | reflexivity | reflexivity | discriminate]
  end.
Defined.

End examples.

(** * Examples of the further properties *)

Section more_examples.
Import Sample MoreSamples.
#[local] Existing Instance Posix.posix.

Lemma compare_rename_witness :
  compare_baseline_and_current
    (Some (document None (<["old.txt" := some_record]> some_files)))
    (<["new.txt" := some_record]> some_files)
  = Ok {| added := [{| a_path := "new.txt"; a_current := some_record |}];
          deleted := [{| d_path := "old.txt"; d_baseline := some_record |}];
          modified := [] |}.
Proof.
  apply compare_rename; [vm_compute; reflexivity | vm_compute; reflexivity | discriminate].
Defined.

Lemma compare_single_removal_witness :
  compare_baseline_and_current
    (Some (document None (<["old.txt" := some_record]> some_files)))
    (delete "old.txt" (<["old.txt" := some_record]> some_files))
  = Ok {| added := [];
          deleted := [{| d_path := "old.txt"; d_baseline := some_record |}];
          modified := [] |}.
Proof. apply compare_single_removal. vm_compute. reflexivity. Defined.

Lemma scan_reads_exactly_the_kept_files_witness :
  ∃ cur w' evs,
    scan_current_state "data" ["cache"] env world = (Ok cur, w')
    ∧ w' = add_trace world evs
    ∧ opened evs = ["/srv/data/a.txt"; "/srv/data/secret.key"; "/srv/data/docs/readme.md"]
    ∧ dom cur = {["a.txt"; "secret.key"; "docs/readme.md"]}.
Proof.
  let r := eval vm_compute in (scan_current_state "data" ["cache"] env world) in
  match r with
  | (Ok ?cur, ?w') =>
      destruct (scan_reads_exactly_the_kept_files "data" ["cache"] env world cur w')
        as (evs & Hw & Hopened & Hdom); [vm_compute; reflexivity|];
      exists cur, w', evs; split; [vm_compute; reflexivity|]; split; [exact Hw|];
      split; [rewrite Hopened | rewrite Hdom]; vm_compute; reflexivity
  end.
Defined.

Lemma scan_records_are_well_formed_witness :
  ∃ cur rec,
    (scan_current_state "data" ["cache"] env world).1 = Ok cur
    ∧ cur !! "secret.key" = Some rec
    ∧ is_Some (rec_hash rec) ∧ (is_Some (rec_size rec) ↔ is_Some (rec_mtime rec)).
Proof.
  let r := eval vm_compute in (scan_current_state "data" ["cache"] env world) in
  match r with
  | (Ok ?cur, ?w') =>
      let o := eval vm_compute in (cur !! "secret.key") in
      match o with
      | Some ?rec =>
          exists cur, rec; split; [vm_compute; reflexivity|];
          split; [vm_compute; reflexivity|];
          apply (scan_records_are_well_formed "data" ["cache"] env world cur w')
            with (k := "secret.key"); vm_compute; reflexivity
      end
  end.
Defined.

Lemma hashless_baseline_entry_is_modified_witness :
  ∃ cur rc d,
    (scan_current_state "data" ["cache"] env world).1 = Ok cur
    ∧ compare_baseline_and_current (Some (document None hashless_files)) cur = Ok d
    ∧ {| m_path := "a.txt"; m_baseline := hashless_record; m_current := rc |}
      ∈ modified d.
Proof.
  let r := eval vm_compute in (scan_current_state "data" ["cache"] env world) in
  match r with
  | (Ok ?cur, ?w') =>
      let o := eval vm_compute in (cur !! "a.txt") in
      match o with
      | Some ?rc =>
          destruct (hashless_baseline_entry_is_modified "data" ["cache"] env world cur w'
                      None hashless_files "a.txt" hashless_record rc)
            as (d & Hd & Hin); [vm_compute; reflexivity..|];
          exists cur, rc, d; split; [vm_compute; reflexivity|]; split; [exact Hd | exact Hin]
      end
  end.
Defined.

Lemma unlistable_target_scans_empty_witness :
  scan_current_state "nowhere" ["cache"] env world
  = (Ok ∅, add_trace world
             [EvScandir (path_normpath (path_abspath (cwd env) "nowhere"))])
  ∧ ∃ d, compare_baseline_and_current (Some (document None some_files)) ∅ = Ok d
      ∧ added d = [] ∧ modified d = []
      ∧ ∀ k r, {| d_path := k; d_baseline := r |} ∈ deleted d ↔ some_files !! k = Some r.
Proof.
  apply (unlistable_target_scans_empty "nowhere" ["cache"] env world None some_files).
  intros entries. vm_compute. discriminate.
Defined.

Lemma digest_is_of_the_content_witness :
  (compute_sha256 "/srv/data/a.txt" env world).1
  = Ok "8ed3f6ad685b959ead7022518e1af76cd816f8e8ec7ccdda1ed4018e8f2223f8".
Proof.
  destruct (digest_is_of_the_content "/srv/data/a.txt" env world) as (_ & Hdigest & _);
    [vm_compute; reflexivity | vm_compute; reflexivity |].
  rewrite Hdigest. vm_compute. reflexivity.
Defined.

Lemma baseline_round_trip_witness :
  ∃ b w',
    build_baseline "data" "baseline.json" ["cache"] env world = (Ok b, w')
    ∧ load_baseline "baseline.json" env w' = (Ok (Some b), w').
Proof.
  let r := eval vm_compute in
    (build_baseline "data" "baseline.json" ["cache"] env world) in
  match r with
  | (Ok ?b, ?w') =>
      destruct (baseline_round_trip "data" "baseline.json" ["cache"] env world b w')
        as (Hload & _); [vm_compute; reflexivity|];
      exists b, w'; split; [vm_compute; reflexivity | apply Hload]
  end.
Defined.

Lemma failed_scan_keeps_stored_baseline_witness :
  ∃ w1,
    build_baseline "data" "baseline.json" ["cache"] env_io_error world_with_baseline
    = (Raise OSError, w1)
    ∧ store w1 = store world_with_baseline.
Proof.
  let r := eval vm_compute in
    (scan_current_state "data" ["cache"] env_io_error world_with_baseline) in
  match r with
  | (Raise ?e, ?w1) =>
      exists w1;
      apply (failed_scan_keeps_stored_baseline "data" "baseline.json" ["cache"]
               env_io_error world_with_baseline e w1);
      vm_compute; reflexivity
  end.
Defined.


Lemma truncated_baseline_raises_witness :
  run_scan_once "data" "baseline.json" (Some "fim.log") ["cache"] env world_truncated
  = (Raise JSONDecodeError, world_truncated)
  ∧ monitor_loop "data" "baseline.json" 5 (Some "fim.log") true ["cache"] env [env; env]
      world_truncated
    = (Uncaught JSONDecodeError None,
       add_log world_truncated [monitoring_line "data" 5]).
Proof.
  apply (truncated_baseline_raises "data" "baseline.json" 5 (Some "fim.log") true
           ["cache"] env [env; env] world_truncated).
  - intros _. reflexivity.
  - vm_compute. reflexivity.
Defined.


Lemma scan_failure_ends_monitor_witness :
  ∃ w1,
    monitor_while "data" "baseline.json" 5 true ["cache"] old_baseline
      [env_io_error; env] world_with_baseline
    = (Uncaught OSError (Some old_baseline), w1)
    ∧ store w1 = store world_with_baseline.
Proof.
  let r := eval vm_compute in
    (scan_current_state "data" ["cache"] env_io_error world_with_baseline) in
  match r with
  | (Raise ?e, ?w1) =>
      exists w1;
      apply (scan_failure_ends_monitor "data" "baseline.json" 5 true ["cache"]
               old_baseline env_io_error [env] world_with_baseline e w1);
      vm_compute; reflexivity
  end.
Defined.

Lemma interrupt_during_sleep_stops_monitor_witness :
  ∃ w',
    monitor_while "data" "baseline.json" 5 false ["cache"] old_baseline
      [with_interrupted_sleep env; env] world_with_baseline
    = (Returned, add_log w' [(INFO, "Monitoring stopped.")]).
Proof.
  let r := eval vm_compute in
    (monitor_detect "data" ["cache"] old_baseline (with_interrupted_sleep env)
       world_with_baseline) in
  match r with
  | (Ok (?cur, ?changes), ?w1) =>
      eexists;
      apply (interrupt_during_sleep_stops_monitor "data" "baseline.json" 5 false
               ["cache"] old_baseline (with_interrupted_sleep env) [env]
               world_with_baseline cur changes w1);
        [cbv [sleep_accepts sleep_max Posix.posix Posix.SLEEP_MAX]; lia
        | vm_compute; reflexivity | reflexivity | reflexivity]
  end.
Defined.

Lemma change_is_reported_once_witness :
  ∃ b w',
    monitor_while "data" "baseline.json" 5 true ["cache"] old_baseline [env; env]
      world_with_baseline = (Running b, w')
    ∧ store w' !! "baseline.json" = Some (Holds b)
    ∧ last (log w') = Some (DEBUG, "No changes detected.").
Proof.
  let r := eval vm_compute in
    (monitor_detect "data" ["cache"] old_baseline env world_with_baseline) in
  match r with
  | (Ok (?cur, ?changes), ?w1) =>
      destruct (change_is_reported_once "data" "baseline.json" 5 ["cache"]
                  old_baseline env world_with_baseline cur changes w1)
        as (w' & Hrun & Hstore & Hlog);
        [cbv [sleep_accepts sleep_max Posix.posix Posix.SLEEP_MAX]; lia
        | vm_compute; reflexivity | reflexivity | reflexivity | reflexivity |];
      exists (updated_baseline "data" env cur), w'; split; [exact Hrun|];
      split; [exact Hstore | exact Hlog]
  end.
Defined.

Lemma unopenable_log_file_raises_witness :
  run_scan_once "data" "baseline.json" (Some "logs/fim.log") ["cache"]
    (with_missing_log_dir env "logs/fim.log") world_with_baseline
  = (Raise FileNotFoundError, world_with_baseline)
  ∧ monitor_loop "data" "baseline.json" 5 (Some "logs/fim.log") true ["cache"]
      (with_missing_log_dir env "logs/fim.log") [env; env] world_with_baseline
    = (Uncaught FileNotFoundError None, world_with_baseline).
Proof.
  apply (unopenable_log_file_raises "data" "baseline.json" 5 "logs/fim.log" true
           ["cache"] (with_missing_log_dir env "logs/fim.log") [env; env]
           world_with_baseline FileNotFoundError).
  - discriminate.
  - reflexivity.
Defined.

Lemma rejected_interval_ends_monitor_witness :
  ∃ e b w',
    (e = ValueError ∨ e = OverflowError)
    ∧ monitor_while "data" "baseline.json" (-1) true ["cache"] old_baseline [env; env]
        world_with_baseline = (Uncaught e (Some b), w')
    ∧ store w' !! "baseline.json" = Some (Holds b).
Proof.
  let r := eval vm_compute in
    (monitor_detect "data" ["cache"] old_baseline env world_with_baseline) in
  match r with
  | (Ok (?cur, ?changes), ?w1) =>
      destruct (rejected_interval_ends_monitor "data" "baseline.json" (-1) true
                  ["cache"] old_baseline env [env] world_with_baseline cur changes w1)
        as (e & He & Hrun);
        [cbv [sleep_accepts sleep_max Posix.posix Posix.SLEEP_MAX]; lia
        | vm_compute; reflexivity | reflexivity |];
      eexists e, _, _; split; [exact He|]; split; [exact Hrun|];
      vm_compute; reflexivity
  end.
Defined.

End more_examples.
